(** * supabase-tailer: the tailing, batching and retrying pipeline

    A shallow embedding of [supabase-tailer.mjs] (the current revision, with
    the chokidar watcher and the debounced batch insert) and the proofs of
    the properties its design document states about it.

    Layout: the JavaScript values the program manipulates, credential
    resolution and start-up, the line splitter, the file system and the tail
    sessions, then the event loop of the pipeline as a step function over a
    world state; the theorems follow the definitions. *)

From Stdlib Require Import ZArith Ascii String List Lia Bool.
From stdpp Require Import base option list strings gmap.

Local Open Scope Z_scope.
Local Open Scope nat_scope.

(* ===================================================================== *)
(** ** JavaScript values                                                   *)
(* ===================================================================== *)

(** The values that occur in a decoded token payload and in a record sent
    to the sink.  Numbers are the integral JSON numbers.  Objects and arrays
    only matter through their truthiness here and are kept as JSON text.
    Functions occur as the members a value inherits from its prototype. *)
Inductive JsVal : Type :=
| JUndefined
| JNull
| JBool (b : bool)
| JNum (n : Z)
| JStr (s : string)
| JObject (json : string)
| JFunction (name : string).

(** [!v] is [negb (truthy v)]. *)
Definition truthy (v : JsVal) : bool :=
  match v with
  | JUndefined | JNull => false
  | JBool b => b
  | JNum n => negb (n =? 0)%Z
  | JStr s => negb (String.eqb s "")
  | JObject _ => true
  | JFunction _ => true
  end.

Definition nullish (v : JsVal) : bool :=
  match v with
  | JUndefined | JNull => true
  | _ => false
  end.

(** [a ?? b] *)
Definition coalesce (a b : JsVal) : JsVal := if nullish a then b else a.

(** The functions every object inherits from [Object.prototype]. *)
Definition Object_prototype_functions : list string :=
  ["constructor"; "hasOwnProperty"; "isPrototypeOf"; "propertyIsEnumerable";
   "toLocaleString"; "toString"; "valueOf";
   "__defineGetter__"; "__defineSetter__"; "__lookupGetter__"; "__lookupSetter__"].

(** [Object.prototype[k]]: one of these functions, or the prototype object
    itself under the accessor [__proto__]; [undefined] for any other key. *)
Definition Object_prototype (k : string) : JsVal :=
  if existsb (String.eqb k) Object_prototype_functions then JFunction k
  else if String.eqb k "__proto__" then JObject "{}"
  else JUndefined.

(** A value that [JSON.parse] has returned, as the program uses it: by
    reading properties.  A JSON object is kept with its own properties.
    Any other value (a string, a number, a boolean, an array) is kept as
    what reading a property of it gives: its own indices and [length], then
    the members of its prototype chain, [String.prototype.sub] for one. *)
Inductive Payload : Type :=
| PObject (fields : gmap string JsVal)
| POther (read : string -> JsVal).

(** [v[k]] and [v.k]: an own property of the object if there is one of that
    name, otherwise what the object inherits under that name, otherwise
    [undefined]. *)
Definition js_get (v : Payload) (k : string) : JsVal :=
  match v with
  | PObject fields =>
      match fields !! k with
      | Some x => x
      | None => Object_prototype k
      end
  | POther read => read k
  end.

(** A command-line option is a string or, when not given, [undefined]. *)
Definition opt_val (o : option string) : JsVal :=
  match o with
  | Some s => JStr s
  | None => JUndefined
  end.

(** What a function call ends in: a value, or a thrown [Error]. *)
Inductive Result (A : Type) : Type :=
| Ok (a : A)
| Throw (msg : string).
Arguments Ok {A} a.
Arguments Throw {A} msg.

(* ===================================================================== *)
(** ** Credentials                                                         *)
(* ===================================================================== *)

(** The outcome of [jwt.decode(token)] of the external JWT library: it
    throws, or it returns an object whose [payload] is the value parsed from
    the second part of the token, or is missing or null ([None]). *)
Inductive Decoded : Type :=
| DecodeThrows (msg : string)
| DecodeReturns (payload : option Payload).

Record Credentials : Type := {
  userId : JsVal;
  payload : option Payload
}.

Section Credentials.
(** The external decoder. *)
Variable jwt_decode : string -> Decoded.

Definition getCredentialsFromToken (token : string) : Result Credentials :=
  if negb (truthy (JStr token)) then
    Throw "cannot get client for blank token"
  else
    match jwt_decode token with
    | DecodeThrows msg => Throw msg
    | DecodeReturns out_payload =>
        let userId :=
          match out_payload with
          | Some p => coalesce (js_get p "userId") (coalesce (js_get p "sub") JNull)
          | None => JNull
          end in
        if negb (truthy userId) then
          Throw "could not get user id from token"
        else
          Ok {| userId := userId; payload := out_payload |}
    end.

(** Lines 182-186 of [main]: the credentials, then the auth id read from
    the payload under the key the caller named. *)
Definition resolveAuth (token authIdKey : string)
  : Result (JsVal * JsVal * Payload) :=
  match getCredentialsFromToken token with
  | Throw msg => Throw msg
  | Ok c =>
      match payload c with
      | None => Throw "TypeError: Cannot read properties of null"
      | Some p =>
          let authId := js_get p authIdKey in
          if negb (truthy authId) then
            Throw "Error: No auth id found in payload"
          else Ok (userId c, authId, p)
      end
  end.
End Credentials.

(* ===================================================================== *)
(** ** Command line and start-up                                           *)
(* ===================================================================== *)

(** The options declared with [program.option(...)]; there are no others. *)
Definition declared_options : list string :=
  ["jwt"; "tableName"; "databaseIdKey"; "authIdKey"].

Record Opts : Type := {
  opt_jwt : option string;
  opt_tableName : option string;
  opt_databaseIdKey : option string;
  opt_authIdKey : option string
}.

(** What the closures of [main] capture once start-up has succeeded. *)
Record Env : Type := {
  env_userId : JsVal;
  env_authId : JsVal;
  env_databaseIdKey : string;
  env_tableName : string
}.

(** The constants of the delivery loop (lines 292-293). *)
Definition numRetries : nat := 10.
Definition retryDelayMs : Z := 1000.

Definition colon : ascii := ":"%char.

(** The text after the first colon of [s], when [s] has one. *)
Fixpoint after_first_colon (s : string) : option string :=
  match s with
  | EmptyString => None
  | String c rest =>
      if Ascii.eqb c colon then Some rest else after_first_colon rest
  end.

(** Group 2 of the regular expression matched against a path spec (line
    201): the rest of the spec after an optional tag, a tag being a non-empty
    colon-free prefix followed by a colon. *)
Definition pathSpec_path (pathSpec : string) : string :=
  match pathSpec with
  | EmptyString => pathSpec
  | String c _ =>
      if Ascii.eqb c colon then pathSpec
      else match after_first_colon pathSpec with
           | Some rest => rest
           | None => pathSpec
           end
  end.

(** One turn of the loop over [paths] (lines 196-250): the pattern handed to
    [chokidar.watch], if any.  For the sentinel the loop only assigns
    [tailStream = process.stdin]; the variable is not read afterwards, so
    nothing is attached to standard input. *)
Definition watch_of_pathSpec (path_resolve : string -> string) (pathSpec : string)
  : option string :=
  if String.eqb pathSpec "-" then None
  else Some (path_resolve (pathSpec_path pathSpec)).

Definition watchers_of (path_resolve : string -> string) (paths : list string)
  : list string :=
  omap (watch_of_pathSpec path_resolve) paths.

(** The outcome of [program.parse(process.argv)] of the external
    command-line library, with the declarations of lines 150-157: the
    library ends the process itself (an unknown option, an option without
    its argument, [--help]), or it returns and [program.opts()] and
    [program.args] hold the options and the paths. *)
Inductive Parsed : Type :=
| ParseExits (code : Z)
| ParseReturns (opts : Opts) (args : list string).

(** How [main] ends: the process is ended with [process.exit], by the
    command-line library or by line 163; [main] throws; or [main] runs to
    its end, the handlers installed. *)
Inductive Startup : Type :=
| Exited (code : Z)
| Failed (msg : string)
| Started (env : Env) (watchers : list string).

Section Main.
Variable jwt_decode : string -> Decoded.
Variable path_resolve : string -> string.
(** [process.env.SUPABASE_URL] and [process.env.SUPABASE_ANON_KEY], once
    [dotenv.config()] has run. *)
Variables SUPABASE_URL SUPABASE_ANON_KEY : option string.
(** [createServerClient(url, key, options)] of the external client library,
    called with the URL, the key and the [Authorization] header: it returns
    a client or it throws (a URL that is not an HTTP or HTTPS URL, for
    one). *)
Variable createServerClient : string -> string -> string -> Result unit.

(** [createClient({ jwt })]: the three checks, then the client library. *)
Definition createClient (jwt : string) : Result unit :=
  if negb (truthy (opt_val SUPABASE_URL)) then Throw "SUPABASE_URL is not set"
  else if negb (truthy (opt_val SUPABASE_ANON_KEY)) then Throw "SUPABASE_ANON_KEY is not set"
  else if negb (truthy (JStr jwt)) then Throw "JWT is not set"
  else createServerClient (default "" SUPABASE_URL) (default "" SUPABASE_ANON_KEY)
         ("Bearer " +:+ jwt).

(** [main] up to the point where the two [data] handlers are installed,
    given what [program.parse(process.argv)] ends in.  Every watcher is
    taken to report [ready], as the watcher library does once its first scan
    is over. *)
Definition main (parsed : Parsed) : Startup :=
  match parsed with
  | ParseExits code => Exited code
  | ParseReturns opts paths =>
  if (length paths =? 0)%nat then Exited 1
  else match opt_jwt opts with
  | None => Failed "Error: No JWT token specified"
  | Some jwt =>
  if negb (truthy (JStr jwt)) then Failed "Error: No JWT token specified"
  else if negb (truthy (opt_val (opt_tableName opts))) then
    Failed "Error: No table name specified"
  else if negb (truthy (opt_val (opt_databaseIdKey opts))) then
    Failed "Error: No database id key specified"
  else if negb (truthy (opt_val (opt_authIdKey opts))) then
    Failed "Error: No auth id key specified"
  else
    match resolveAuth jwt_decode jwt (default "" (opt_authIdKey opts)) with
    | Throw msg => Failed msg
    | Ok (uid, authId, _) =>
        let watchers := watchers_of path_resolve paths in
        match createClient jwt with
        | Throw msg => Failed msg
        | Ok _ =>
            Started {| env_userId := uid;
                       env_authId := authId;
                       env_databaseIdKey := default "" (opt_databaseIdKey opts);
                       env_tableName := default "" (opt_tableName opts) |}
                    watchers
        end
    end
  end
  end.
End Main.

(* ===================================================================== *)
(** ** Records                                                             *)
(* ===================================================================== *)

(** The object literal of lines 277-282,
    [{ user_id: userId, [databaseIdKey]: authId, content: line, stream }]:
    the properties are defined in source order, a later one replacing an
    earlier one of the same name. *)
Definition mkEntry (env : Env) (stream line : string) : gmap string JsVal :=
  <["stream" := JStr stream]>
    (<["content" := JStr line]>
       (<[env_databaseIdKey env := env_authId env]>
          (<["user_id" := env_userId env]> ∅))).

(* ===================================================================== *)
(** ** The line splitter                                                   *)
(* ===================================================================== *)

Definition newline : ascii := "010"%char.
Definition nl : string := String newline "".

(** Modelled from the spec: the transform returned by [split2()] (the
    external line splitter), after section 4.3 of the design document: the
    input is split on the newline delimiter, the bytes after the last
    delimiter are held back in [last] and prefixed onto the next chunk.
    [split2_write last chunk] gives the complete lines and the new held-back
    text. *)
Fixpoint split2_write (last chunk : string) : list string * string :=
  match chunk with
  | EmptyString => ([], last)
  | String c rest =>
      if Ascii.eqb c newline then
        let '(lines, last') := split2_write "" rest in (last :: lines, last')
      else split2_write (last +:+ String c "") rest
  end.

(** Modelled from the spec: the end of the splitter's input (section 4.3):
    held-back text that is not empty is flushed as one last line. *)
Definition split2_end (last : string) : list string :=
  if truthy (JStr last) then [last] else [].

(* ===================================================================== *)
(** ** Files and tail sessions                                             *)
(* ===================================================================== *)

(** A directory entry: a regular file with its bytes, or a symbolic link
    with the (absolute) path it names. *)
Inductive Node : Type :=
| RegularFile (content : string)
| Symlink (target : string).

(** [(await fs.promises.lstat(p)).size]: [lstat] describes the entry itself,
    for a link the size is the length of the path it holds.  [None] when
    there is no such entry (the promise rejects). *)
Definition lstat_size (fs : gmap string Node) (p : string) : option nat :=
  match fs !! p with
  | Some (RegularFile content) => Some (String.length content)
  | Some (Symlink target) => Some (String.length target)
  | None => None
  end.

(** The bytes reached by opening [p] for reading, links followed. *)
Fixpoint read_through (hops : nat) (fs : gmap string Node) (p : string)
  : option string :=
  match fs !! p with
  | Some (RegularFile content) => Some content
  | Some (Symlink target) =>
      match hops with
      | O => None
      | S hops' => read_through hops' fs target
      end
  | None => None
  end.

Definition maxSymlinks : nat := 40.

Definition readFile (fs : gmap string Node) (p : string) : option string :=
  read_through maxSymlinks fs p.

Fixpoint string_drop (n : nat) (s : string) : string :=
  match n, s with
  | O, _ => s
  | S n', String _ rest => string_drop n' rest
  | S _, EmptyString => s
  end.

(** One tail session: the path, the offset the stream was opened at, the
    text held back by the session's splitter, and whether the stream has
    ended. *)
Record Session : Type := {
  s_path : string;
  s_start : nat;
  s_last : string;
  s_ended : bool
}.

(** [TailStreamManager.addTailStream(p)] on the file system [fs]: the size
    from [lstat], then [createReadStream(p, { start: initialSize })]. *)
Definition addTailStream (fs : gmap string Node) (p : string) : option Session :=
  match lstat_size fs p with
  | Some initialSize =>
      Some {| s_path := p; s_start := initialSize; s_last := ""; s_ended := false |}
  | None => None
  end.

(** Modelled from the spec: the stream of the external tail-file-stream
    package opened with [start], after section 4.2: it delivers the bytes of
    the file from that offset on.  [tail_bytes fs sess] is all it has
    delivered once it has caught up with the file as it is in [fs]. *)
Definition tail_bytes (fs : gmap string Node) (sess : Session) : option string :=
  match readFile fs (s_path sess) with
  | Some content => Some (string_drop (s_start sess) content)
  | None => None
  end.

(** The [data] handler of lines 132-137: what one line makes it write to the
    session's [stdoutStream]. *)
Definition tail_on_data (line : string) : list string :=
  if truthy (JStr line) then [line +:+ nl] else [].

(** The chunks written to [stdoutStream] and to [stderrStream] for the lines
    of one session; no statement writes to [stderrStream]. *)
Definition session_writes (lines : list string) : list string * list string :=
  (flat_map tail_on_data lines, []).

(* ===================================================================== *)
(** ** The event loop                                                      *)
(* ===================================================================== *)

(** The program is a set of handlers on one JavaScript event loop: each
    event runs its handler to the next [await] before another event is
    taken.  The state below is what the handlers share; [step] is one event.
    Node streams and pipes hand chunks on in the order they were written;
    here a chunk written upstream reaches the handler downstream within the
    same step.  Console output is left out. *)

Abbreviation Entry := (gmap string JsVal).

(** What the program does that can be observed, in order.  [EvPush] and
    [EvSnapshot] record the two operations on [lineQueue]; the source of a
    pushed line is kept for the statements about ordering only. *)
Inductive Event : Type :=
| EvPush (src : nat) (e : Entry)
| EvSnapshot (entries : list Entry)
| EvInsert (table : string) (entries : list Entry)
| EvResult (error : bool)
| EvWait (ms : Z)
| EvThrow (msg : string).

(** Where a suspended flush function waits: at [await ...insert(entries)] or
    at [await new Promise(... setTimeout ...)]. *)
Inductive Pc : Type := AwaitInsert | AwaitTimer.

(** A suspended call of the flush function with its locals. *)
Record Flight : Type := {
  fl_entries : list Entry;
  fl_i : nat;
  fl_pc : Pc
}.

(** Modelled from the spec: the state of the [Debouncer] of the external
    debouncer-async package, after the state machine of section 4.5:
    [idle], [flushing] (with or without one more flush pending) and
    [fatal]. *)
Inductive Debouncer : Type :=
| Idle
| Flushing (pending : bool)
| Fatal.

Record World : Type := {
  sessions : list Session;
  gout_last : string;   (* splitter behind globalStdoutStream *)
  gerr_last : string;   (* splitter behind globalStderrStream *)
  lineQueue : list Entry;
  debouncer : Debouncer;
  flights : list Flight;
  trace : list Event
}.

Definition init : World :=
  {| sessions := []; gout_last := ""; gerr_last := ""; lineQueue := [];
     debouncer := Idle; flights := []; trace := [] |}.

Definition set_sessions (x : list Session) (w : World) : World :=
  {| sessions := x; gout_last := gout_last w; gerr_last := gerr_last w;
     lineQueue := lineQueue w; debouncer := debouncer w; flights := flights w;
     trace := trace w |}.

Definition set_gout_last (x : string) (w : World) : World :=
  {| sessions := sessions w; gout_last := x; gerr_last := gerr_last w;
     lineQueue := lineQueue w; debouncer := debouncer w; flights := flights w;
     trace := trace w |}.

Definition set_gerr_last (x : string) (w : World) : World :=
  {| sessions := sessions w; gout_last := gout_last w; gerr_last := x;
     lineQueue := lineQueue w; debouncer := debouncer w; flights := flights w;
     trace := trace w |}.

Definition set_lineQueue (x : list Entry) (w : World) : World :=
  {| sessions := sessions w; gout_last := gout_last w; gerr_last := gerr_last w;
     lineQueue := x; debouncer := debouncer w; flights := flights w;
     trace := trace w |}.

Definition set_debouncer (x : Debouncer) (w : World) : World :=
  {| sessions := sessions w; gout_last := gout_last w; gerr_last := gerr_last w;
     lineQueue := lineQueue w; debouncer := x; flights := flights w;
     trace := trace w |}.

Definition set_flights (x : list Flight) (w : World) : World :=
  {| sessions := sessions w; gout_last := gout_last w; gerr_last := gerr_last w;
     lineQueue := lineQueue w; debouncer := debouncer w; flights := x;
     trace := trace w |}.

Definition emit (evs : list Event) (w : World) : World :=
  {| sessions := sessions w; gout_last := gout_last w; gerr_last := gerr_last w;
     lineQueue := lineQueue w; debouncer := debouncer w; flights := flights w;
     trace := trace w ++ evs |}.

(** How a run of the flush function up to its next [await] ends. *)
Inductive FlushStatus : Type := Suspended | Returned | Threw.

Inductive Input : Type :=
| FileAdded (fs : gmap string Node) (p : string)  (* chokidar [add], on the file system [fs] *)
| TailData (sid : nat) (chunk : string)           (* a tail stream delivers bytes *)
| TailEnd (sid : nat)                             (* a tail stream ends *)
| StdinData (chunk : string)                      (* bytes arrive on standard input *)
| SinkReply (k : nat) (error : bool)              (* the awaited insert of flight [k] resolves *)
| TimerFired (k : nat).                           (* the awaited timer of flight [k] fires *)

Section Pipeline.
Variable env : Env.
Variable watchers : list string.
(** Modelled from the spec: what becomes of the process after the flush
    function has thrown is left open in section 9 of the design document;
    [fatal_stops] says whether everything stops there ([fatal] is final) or
    the debouncer goes on as after a flush that has returned. *)
Variable fatal_stops : bool.

(** The head of [for (let i = 0; i < numRetries; i++)] at index [i] and the
    statements up to the awaited insert; after the loop, the [throw]. *)
Definition loop_head (entries : list Entry) (i : nat) (w : World)
  : World * FlushStatus :=
  if (i <? numRetries)%nat then
    (emit [EvInsert (env_tableName env) entries]
       (set_flights
          (flights w ++ [{| fl_entries := entries; fl_i := i; fl_pc := AwaitInsert |}]) w),
     Suspended)
  else
    (emit [EvThrow "failed to insert log after 10 retries"] w, Threw).

(** The function passed to [waitForTurn] (lines 285-308), up to its first
    [await]: [entries = lineQueue.slice(); lineQueue.length = 0], then the
    loop if there is anything to send. *)
Definition flush (w : World) : World * FlushStatus :=
  let entries := lineQueue w in
  let w1 := emit [EvSnapshot entries] (set_lineQueue [] w) in
  if (0 <? length entries)%nat then loop_head entries 0 w1 else (w1, Returned).

(** Modelled from the spec: the debouncer lets a flush run (section 4.5):
    it is [flushing] until that flush is over; a flush that ends without
    having been suspended leaves it [idle], or [fatal] if it threw and that
    is final. *)
Definition run_turn (w : World) : World :=
  let '(w1, st) := flush (set_debouncer (Flushing false) w) in
  match st with
  | Suspended => w1
  | Returned => set_debouncer Idle w1
  | Threw => set_debouncer (if fatal_stops then Fatal else Idle) w1
  end.

(** Modelled from the spec: [debouncer.waitForTurn(fn)] (section 4.5): when
    no flush is running one is started, otherwise the request is absorbed
    and one more flush is pending. *)
Definition waitForTurn (w : World) : World :=
  match debouncer w with
  | Idle => run_turn w
  | Flushing _ => set_debouncer (Flushing true) w
  | Fatal => w
  end.

(** Modelled from the spec: the running flush has returned (section 4.5):
    the pending flush, if there is one, runs now; otherwise [idle]. *)
Definition turn_done (w : World) : World :=
  match debouncer w with
  | Flushing true => run_turn w
  | _ => set_debouncer Idle w
  end.

(** Modelled from the spec: the running flush has thrown (sections 4.5 and
    9). *)
Definition turn_failed (w : World) : World :=
  if fatal_stops then set_debouncer Fatal w else turn_done w.

(** [makeProcessLogLine(stream)(line)], lines 275-310.  [src] is the session
    the line came from; it is recorded in the trace and has no other use. *)
Definition makeProcessLogLine (src : nat) (stream line : string) (w : World)
  : World :=
  if truthy (JStr line) then
    let entry := mkEntry env stream line in
    waitForTurn (emit [EvPush src entry] (set_lineQueue (lineQueue w ++ [entry]) w))
  else w.

(** A chunk arrives on [globalStdoutStream]: lines 311-312. *)
Definition global_stdout_write (src : nat) (w : World) (chunk : string) : World :=
  let '(lines, last) := split2_write (gout_last w) chunk in
  fold_left (fun w line => makeProcessLogLine src "stdout" line w) lines
            (set_gout_last last w).

(** A chunk arrives on [globalStderrStream]: lines 313-314. *)
Definition global_stderr_write (src : nat) (w : World) (chunk : string) : World :=
  let '(lines, last) := split2_write (gerr_last w) chunk in
  fold_left (fun w line => makeProcessLogLine src "stderr" line w) lines
            (set_gerr_last last w).

(** The lines [lines] come out of the splitter of session [sid]: its handler
    writes to the two streams of the session, which are piped into the two
    global streams (lines 229-234). *)
Definition session_lines (sid : nat) (lines : list string) (w : World) : World :=
  let '(outs, errs) := session_writes lines in
  fold_left (global_stderr_write sid) errs
            (fold_left (global_stdout_write sid) outs w).

Definition set_session_last (last : string) (ended : bool) (s : Session) : Session :=
  {| s_path := s_path s; s_start := s_start s; s_last := last; s_ended := ended |}.

Definition set_pc (pc : Pc) (f : Flight) : Flight :=
  {| fl_entries := fl_entries f; fl_i := fl_i f; fl_pc := pc |}.

(** One event of the event loop, run to completion.  [None]: the event
    cannot happen in this state, or the state is [fatal]. *)
Definition step (w : World) (inp : Input) : option World :=
  match debouncer w with
  | Fatal => None
  | _ =>
    match inp with
    | FileAdded fs p =>
        match watchers with
        | [] => None
        | _ :: _ =>
            match addTailStream fs p with
            | Some sess => Some (set_sessions (sessions w ++ [sess]) w)
            | None => None
            end
        end
    | TailData sid chunk =>
        match sessions w !! sid with
        | Some sess =>
            if s_ended sess then None
            else
              let '(lines, last) := split2_write (s_last sess) chunk in
              Some (session_lines sid lines
                      (set_sessions (<[sid := set_session_last last false sess]> (sessions w)) w))
        | None => None
        end
    | TailEnd sid =>
        match sessions w !! sid with
        | Some sess =>
            if s_ended sess then None
            else
              Some (session_lines sid (split2_end (s_last sess))
                      (set_sessions (<[sid := set_session_last "" true sess]> (sessions w)) w))
        | None => None
        end
    | StdinData _ =>
        (* nothing reads [process.stdin] *)
        Some w
    | SinkReply k error =>
        match flights w !! k with
        | Some f =>
            match fl_pc f with
            | AwaitInsert =>
                if error then
                  (* [console.warn], then the timer is set *)
                  Some (emit [EvResult true; EvWait retryDelayMs]
                          (set_flights (<[k := set_pc AwaitTimer f]> (flights w)) w))
                else
                  (* [return] *)
                  Some (turn_done (emit [EvResult false]
                                     (set_flights (delete k (flights w)) w)))
            | AwaitTimer => None
            end
        | None => None
        end
    | TimerFired k =>
        match flights w !! k with
        | Some f =>
            match fl_pc f with
            | AwaitTimer =>
                (* [continue]: [i++], then the loop head *)
                let '(w1, st) :=
                  loop_head (fl_entries f) (S (fl_i f))
                            (set_flights (delete k (flights w)) w) in
                Some match st with
                     | Suspended => w1
                     | Returned => turn_done w1
                     | Threw => turn_failed w1
                     end
            | AwaitInsert => None
            end
        | None => None
        end
    end
  end.

Fixpoint run (w : World) (inputs : list Input) : option World :=
  match inputs with
  | [] => Some w
  | inp :: rest =>
      match step w inp with
      | Some w' => run w' rest
      | None => None
      end
  end.

End Pipeline.

(* ===================================================================== *)
(** ** Vocabulary of the statements                                        *)
(* ===================================================================== *)

(** *** Credentials *)

(** The identity [getCredentialsFromToken] settles on: the [userId]
    property of the payload, or its [sub] property when [userId] is missing
    or null. *)
Definition identity_of (p : Payload) : JsVal :=
  if nullish (js_get p "userId") then
    (if nullish (js_get p "sub") then JNull else js_get p "sub")
  else js_get p "userId".

Definition resolution_fails (jwt_decode : string -> Decoded) (token authIdKey : string)
  : Prop :=
  exists msg, resolveAuth jwt_decode token authIdKey = Throw msg.

(** The claims of a payload: the properties of the JSON object; a payload
    that is not a JSON object has none. *)
Definition claims (p : Payload) : gmap string JsVal :=
  match p with
  | PObject fields => fields
  | POther _ => ∅
  end.

(** The three causes of failure in the words of the design document: an
    empty token, no identity to be had from the token (no decodable payload,
    or neither a [userId] nor a [sub] claim with a usable value), the
    auth-id claim absent from the payload. *)
Definition has_identity (d : Decoded) : Prop :=
  exists p v, d = DecodeReturns (Some p) /\
              (claims p !! "userId" = Some v \/ claims p !! "sub" = Some v) /\
              truthy v = true.

Definition claim_absent (d : Decoded) (key : string) : Prop :=
  exists p, d = DecodeReturns (Some p) /\ claims p !! key = None.

Definition documented_failure (d : Decoded) (token authIdKey : string) : Prop :=
  token = "" \/ ~ has_identity d \/ claim_absent d authIdKey.

(** *** Records *)

(** A record carries the four fields the design document lists. *)
Definition carries_all (env : Env) (stream line : string) (e : gmap string JsVal)
  : Prop :=
  e !! "user_id" = Some (env_userId env) /\
  e !! env_databaseIdKey env = Some (env_authId env) /\
  e !! "content" = Some (JStr line) /\
  e !! "stream" = Some (JStr stream).

(** The field names the object literal itself uses. *)
Definition literal_fields : list string := ["user_id"; "content"; "stream"].

(** *** Configuration *)

(** The two options of section 6 of the design document. *)
Definition retry_options_recognized : Prop :=
  In "backoffMs" declared_options /\ In "maxRetries" declared_options.

(** *** Traces *)

Definition pushes (tr : list Event) : list (nat * Entry) :=
  flat_map (fun ev => match ev with EvPush src e => [(src, e)] | _ => [] end) tr.

Definition pushes_of (sid : nat) (tr : list Event) : list Entry :=
  flat_map (fun ev => match ev with
                      | EvPush src e => if Nat.eqb src sid then [e] else []
                      | _ => []
                      end) tr.

Definition snapshots (tr : list Event) : list (list Entry) :=
  flat_map (fun ev => match ev with EvSnapshot b => [b] | _ => [] end) tr.

Definition inserts (tr : list Event) : list (string * list Entry) :=
  flat_map (fun ev => match ev with EvInsert t b => [(t, b)] | _ => [] end) tr.

Definition results (tr : list Event) : list bool :=
  flat_map (fun ev => match ev with EvResult r => [r] | _ => [] end) tr.

Definition waits (tr : list Event) : list Z :=
  flat_map (fun ev => match ev with EvWait ms => [ms] | _ => [] end) tr.


(** The entries pushed after the last snapshot of the queue. *)
Definition since_snapshot (tr : list Event) : list Entry :=
  fold_left (fun acc ev => match ev with
                           | EvPush _ e => acc ++ [e]
                           | EvSnapshot _ => []
                           | _ => acc
                           end) tr [].

(** The last snapshot of the queue. *)
Definition last_snapshot (tr : list Event) : option (list Entry) :=
  last (snapshots tr).

(** The chunks a run delivers to session [sid], concatenated, and whether
    the run ends the session. *)
Fixpoint delivered (sid : nat) (inputs : list Input) : string :=
  match inputs with
  | [] => ""
  | TailData sid' chunk :: rest =>
      if Nat.eqb sid' sid then chunk +:+ delivered sid rest else delivered sid rest
  | _ :: rest => delivered sid rest
  end.

Definition ends_session (sid : nat) (inputs : list Input) : bool :=
  existsb (fun inp => match inp with TailEnd sid' => Nat.eqb sid' sid | _ => false end)
          inputs.

(** The lines of the text [bytes] of one source: the complete lines and,
    once the source has ended, the unterminated rest; empty lines left
    out. *)
Definition lines_of (bytes : string) (ended : bool) : list string :=
  let '(lines, last) := split2_write "" bytes in
  List.filter (fun l => truthy (JStr l))
              (lines ++ if ended then split2_end last else []).

(** The replies and timers of a sink that fails [k] times in a row. *)
Definition failures (k : nat) : list Input :=
  concat (repeat [SinkReply 0 true; TimerFired 0] k).

(** One failed attempt as it shows in the trace. *)
Definition failed_attempt (env : Env) (entries : list Entry) : list Event :=
  [EvInsert (env_tableName env) entries; EvResult true; EvWait retryDelayMs].

(* ===================================================================== *)
(** ** Invariants                                                          *)
(* ===================================================================== *)

(** A text without the delimiter. *)
Fixpoint newline_free (s : string) : bool :=
  match s with
  | EmptyString => true
  | String c rest => negb (Ascii.eqb c newline) && newline_free rest
  end.

(** The attempts made for the batch of the last snapshot. *)
Definition attempts (tr : list Event) : nat :=
  fold_left (fun n ev => match ev with
                         | EvSnapshot _ => 0
                         | EvInsert _ _ => S n
                         | _ => n
                         end) tr 0.

(** Every insert in the trace sends the batch of the snapshot before it, to
    the table [table]. *)
Definition batches_follow (table : string) (tr : list Event) : Prop :=
  forall tr1 t b tr2,
    tr = tr1 ++ EvInsert t b :: tr2 ->
    t = table /\ last_snapshot tr1 = Some b.

(** The flush function suspended at its insert, in iteration [i]. *)
Definition attempt (entries : list Entry) (i : nat) : Flight :=
  {| fl_entries := entries; fl_i := i; fl_pc := AwaitInsert |}.

(** What one call of the handler of a global stream pushes for session
    [sid]. *)
Definition pushed_by (env : Env) (src sid : nat) (stream line : string) : list Entry :=
  if truthy (JStr line) then
    if Nat.eqb src sid then [mkEntry env stream line] else []
  else [].

(** How the debouncer, the suspended flush functions, the queue and the
    trace hang together. *)
Definition coordinator_inv (d : Debouncer) (fls : list Flight)
    (queue : list Entry) (tr : list Event) : Prop :=
  match d with
  | Idle =>
      fls = [] /\ queue = [] /\ length (inserts tr) = length (results tr)
  | Flushing pending =>
      exists f, fls = [f] /\ fl_entries f <> [] /\ fl_i f < numRetries /\
                last_snapshot tr = Some (fl_entries f) /\
                attempts tr = S (fl_i f) /\
                (if pending then queue <> [] else queue = []) /\
                length (inserts tr) =
                length (results tr) + match fl_pc f with AwaitInsert => 1 | AwaitTimer => 0 end
  | Fatal =>
      fls = [] /\ length (inserts tr) = length (results tr)
  end.

(** The invariant of the delivery coordinator: the queue is what was pushed
    since the last snapshot, the pushes are the snapshots followed by the
    queue, the inserts send snapshots, the waits and the attempts are
    bounded by the constants. *)
Definition flow_inv (env : Env) (w : World) : Prop :=
  lineQueue w = since_snapshot (trace w) /\
  map snd (pushes (trace w)) = concat (snapshots (trace w)) ++ lineQueue w /\
  batches_follow (env_tableName env) (trace w) /\
  Forall (fun ms => ms = retryDelayMs) (waits (trace w)) /\
  attempts (trace w) <= numRetries /\
  coordinator_inv (debouncer w) (flights w) (lineQueue w) (trace w).

(** A record made by the [stdout] handler from a line that is not empty. *)
Definition stdout_record (env : Env) (e : Entry) : Prop :=
  exists line, line <> "" /\ e = mkEntry env "stdout" line.

Definition event_ok (env : Env) (ev : Event) : Prop :=
  match ev with
  | EvPush _ e => stdout_record env e
  | EvSnapshot b => Forall (stdout_record env) b
  | EvInsert _ b => Forall (stdout_record env) b
  | _ => True
  end.

(** Every record in the queue, in a suspended flush or in the trace was
    made by the [stdout] handler from a line that is not empty. *)
Definition shape_inv (env : Env) (w : World) : Prop :=
  Forall (stdout_record env) (lineQueue w) /\
  Forall (fun f => Forall (stdout_record env) (fl_entries f)) (flights w) /\
  Forall (event_ok env) (trace w).

(** What the records pushed for session [sid] are after a run [inputs]. *)
Definition session_inv (env : Env) (inputs : list Input) (w : World) : Prop :=
  gout_last w = "" /\
  forall sid,
    match sessions w !! sid with
    | Some sess =>
        s_ended sess = ends_session sid inputs /\
        s_last sess =
          (if s_ended sess then "" else (split2_write "" (delivered sid inputs)).2) /\
        pushes_of sid (trace w) =
          map (mkEntry env "stdout") (lines_of (delivered sid inputs) (s_ended sess))
    | None =>
        delivered sid inputs = "" /\ ends_session sid inputs = false /\
        pushes_of sid (trace w) = []
    end.



(** Where a record of a reachable state can sit: in the queue, in a push
    event or in a batch handed to the sink. *)
Definition record_of (w : World) (e : Entry) : Prop :=
  In e (lineQueue w) \/
  (exists src, In (EvPush src e) (trace w)) \/
  (exists t b, In (EvInsert t b) (trace w) /\ In e b).

(* ===================================================================== *)
(** ** Concrete configurations, files and runs                             *)
(* ===================================================================== *)

(** A configuration whose foreign-key field is [agent_id]. *)
Definition env_ex : Env :=
  {| env_userId := JStr "user-1"; env_authId := JStr "agent-7";
     env_databaseIdKey := "agent_id"; env_tableName := "logs" |}.

(** Two empty log files. *)
Definition fs_ex : gmap string Node :=
  <["/var/log/a.log" := RegularFile ""]> (<["/var/log/b.log" := RegularFile ""]> ∅).

(** A world whose queue holds one record and where nothing is in flight. *)
Definition queued_ex : World :=
  set_lineQueue [mkEntry env_ex "stdout" "hello"] init.

(** Two lines arrive while the insert of a first one is in flight. *)
Definition burst_ex : list Input :=
  [FileAdded fs_ex "/var/log/a.log";
   TailData 0 ("one" +:+ nl);
   TailData 0 ("two" +:+ nl +:+ "three" +:+ nl)].

(** A file receives an empty line between two lines. *)
Definition blank_ex : list Input :=
  [FileAdded fs_ex "/var/log/a.log";
   TailData 0 ("one" +:+ nl +:+ nl +:+ "two" +:+ nl)].

(** One file gets three lines in two chunks that cut the second line. *)
Definition cut_ex : list Input :=
  [FileAdded fs_ex "/var/log/a.log";
   TailData 0 ("one" +:+ nl +:+ "tw");
   TailData 0 ("o" +:+ nl +:+ "three" +:+ nl)].

(** Two files get one line each, in the one order and in the other. *)
Definition a_then_b : list Input :=
  [FileAdded fs_ex "/var/log/a.log"; FileAdded fs_ex "/var/log/b.log";
   TailData 0 ("from a" +:+ nl); TailData 1 ("from b" +:+ nl)].

Definition b_then_a : list Input :=
  [FileAdded fs_ex "/var/log/a.log"; FileAdded fs_ex "/var/log/b.log";
   TailData 1 ("from b" +:+ nl); TailData 0 ("from a" +:+ nl)].


(** A log file reached through a symbolic link, as container runtimes lay
    them out: the link is 7 bytes long, the file 26. *)
Definition fs_link : gmap string Node :=
  <["/logs/app.log" := Symlink "/data/a"]>
    (<["/data/a" := RegularFile ("old line one" +:+ nl +:+ "old line two" +:+ nl)]> ∅).

(** A token whose payload has a [sub] claim and the auth-id claim [agentId]
    with the value 0. *)
Definition payload_zero : Payload :=
  PObject (<["agentId" := JNum 0]> (<["sub" := JStr "u1"]> ∅)).

(** A decoder that returns that payload. *)
Definition decode_zero (_ : string) : Decoded := DecodeReturns (Some payload_zero).

(** A start-up where the caller names [user_id] as the foreign-key field:
    the token has the identity [user-1] and the auth id [agent-7]. *)
Definition payload_ex : Payload :=
  PObject (<["agentId" := JStr "agent-7"]> (<["sub" := JStr "user-1"]> ∅)).

(** A client library that accepts the URL and the key it is given. *)
Definition client_ok (url key authorization : string) : Result unit := Ok tt.

Definition opts_collide : Opts :=
  {| opt_jwt := Some "h.p.s"; opt_tableName := Some "logs";
     opt_databaseIdKey := Some "user_id"; opt_authIdKey := Some "agentId" |}.

Definition env_collide : Env :=
  {| env_userId := JStr "user-1"; env_authId := JStr "agent-7";
     env_databaseIdKey := "user_id"; env_tableName := "logs" |}.

(* ===================================================================== *)
(** ** The cookie store                                                    *)
(* ===================================================================== *)

Module LocalCookieStore.

(** A stored cookie, [{ value, options }]. *)
Record Cookie : Type := { value : JsVal; options : JsVal }.

(** [cookies = new Map()]: a JavaScript [Map] keeps its keys in the order
    they were first inserted, each key once. *)
Definition empty : list (string * Cookie) := [].

Fixpoint map_get (name : string) (m : list (string * Cookie)) : option Cookie :=
  match m with
  | [] => None
  | (k, c) :: rest => if String.eqb k name then Some c else map_get name rest
  end.

(** [Map.prototype.set]: the value of a key that is there is replaced in
    place, a new key goes to the end. *)
Fixpoint map_set (name : string) (c : Cookie) (m : list (string * Cookie))
  : list (string * Cookie) :=
  match m with
  | [] => [(name, c)]
  | (k, c') :: rest =>
      if String.eqb k name then (name, c) :: rest else (k, c') :: map_set name c rest
  end.

(** [get(name)]: [this.cookies.get(name)?.value]. *)
Definition get (name : string) (m : list (string * Cookie)) : JsVal :=
  match map_get name m with
  | Some c => value c
  | None => JUndefined
  end.

(** [getAll()]: the entries as [{ name, value, options }], in map order. *)
Definition getAll (m : list (string * Cookie)) : list (string * JsVal * JsVal) :=
  map (fun '(name, cookie) => (name, value cookie, options cookie)) m.

(** [set(name, value, options = {})]: the default stands in for an
    [undefined] argument. *)
Definition set (name : string) (v : JsVal) (opts : JsVal)
    (m : list (string * Cookie)) : list (string * Cookie) :=
  map_set name
    {| value := v;
       options := match opts with JUndefined => JObject "{}" | _ => opts end |} m.

(** [delete(name)]. *)
Definition delete (name : string) (m : list (string * Cookie))
  : list (string * Cookie) :=
  List.filter (fun '(k, _) => negb (String.eqb k name)) m.

(** [has(name)]. *)
Definition has (name : string) (m : list (string * Cookie)) : bool :=
  match map_get name m with
  | Some _ => true
  | None => false
  end.

(** The [setAll] callback that [createClient] hands to the Supabase client
    (lines 93-97): [set] for each cookie, in order. *)
Definition setAll (cookiesToSet : list (string * JsVal * JsVal))
    (m : list (string * Cookie)) : list (string * Cookie) :=
  fold_left (fun m '(name, v, opts) => set name v opts m) cookiesToSet m.

(** A call of one of the two methods that change the store. *)
Inductive Op : Type :=
| OpSet (name : string) (v : JsVal) (opts : JsVal)
| OpDelete (name : string).

Definition apply_op (m : list (string * Cookie)) (op : Op) : list (string * Cookie) :=
  match op with
  | OpSet name v opts => set name v opts m
  | OpDelete name => delete name m
  end.

(** The store after the calls [ops], made on a new store. *)
Definition after (ops : list Op) : list (string * Cookie) :=
  fold_left apply_op ops empty.

(** The value of the last cookie named [name] in [cs]. *)
Fixpoint last_named (name : string) (cs : list (string * JsVal * JsVal))
  : option JsVal :=
  match cs with
  | [] => None
  | (k, v, _) :: rest =>
      match last_named name rest with
      | Some v' => Some v'
      | None => if String.eqb k name then Some v else None
      end
  end.

End LocalCookieStore.

(* ===================================================================== *)
(** ** Vocabulary of the further properties                                *)
(* ===================================================================== *)

(** An option, or an environment variable, that is given and not empty. *)
Definition given (o : option string) (s : string) : Prop := o = Some s /\ s <> "".

(** A text without a colon. *)
Fixpoint colon_free (s : string) : bool :=
  match s with
  | EmptyString => true
  | String c rest => negb (Ascii.eqb c colon) && colon_free rest
  end.

(** No suspended flush and no insert in the trace has an empty batch. *)
Definition batch_inv (w : World) : Prop :=
  Forall (fun f => fl_entries f <> []) (flights w) /\
  Forall (fun ev => match ev with EvInsert _ b => b <> [] | _ => True end) (trace w).

(** The events that come from the sources, as opposed to the replies of the
    sink and the timers. *)
Definition source_event (inp : Input) : bool :=
  match inp with
  | FileAdded _ _ | TailData _ _ | TailEnd _ | StdinData _ => true
  | SinkReply _ _ | TimerFired _ => false
  end.

(** From [w] to [w'] records were pushed and nothing else was done: the
    flush in flight is as it was, no snapshot was taken, the sink was not
    called, the queue has grown by the records pushed, and one more flush
    is pending as soon as a record was pushed. *)
Definition absorbed (w w' : World) : Prop :=
  flights w' = flights w /\
  exists evs,
    trace w' = trace w ++ evs /\
    inserts evs = [] /\ snapshots evs = [] /\
    lineQueue w' = lineQueue w ++ map snd (pushes evs) /\
    debouncer w' = match pushes evs with
                   | [] => debouncer w
                   | _ :: _ => Flushing true
                   end.

Definition is_flushing (w : World) : Prop := exists p, debouncer w = Flushing p.

(* ===================================================================== *)
(** ** The revision with log formats                                       *)
(* ===================================================================== *)

(** The revision of the program that takes a format tag in the path spec
    and sends every line on its own: the handler of a tail session runs the
    line through a parser, the handler of the unified stream inserts one
    record per line. *)
Module FormatRevision.

(** What [JSON.parse] makes of a line: an object with its properties,
    [null], or some other value (a number, a string, a boolean, an array). *)
Inductive JsonValue : Type :=
| JsonObject (fields : gmap string JsVal)
| JsonNull
| JsonOther.

Section Parser.
(** [JSON.parse]; [None] when it throws. *)
Variable JSON_parse : string -> option JsonValue.

(** [dockerJsonLogParser(line)]: the [log] property when it is a string.
    Everything else ends in the [catch], which prints a warning and lets
    the function return [undefined], here [None]: a line that does not
    parse, [null] (destructuring it throws), a value or an object without a
    string under [log] (the [throw] of the [else] branch). *)
Definition dockerJsonLogParser (line : string) : option string :=
  match JSON_parse line with
  | Some (JsonObject fields) =>
      match js_get (PObject fields) "log" with
      | JStr log => Some log
      | _ => None
      end
  | Some JsonNull => None
  | Some JsonOther => None
  | None => None
  end.
End Parser.

(** The parser for lines without a format. *)
Definition rawParser (line : string) : option string := Some line.

(** The text before the first colon of [s], when [s] has a colon. *)
Fixpoint before_first_colon (s : string) : option string :=
  match s with
  | EmptyString => None
  | String c rest =>
      if Ascii.eqb c colon then Some EmptyString
      else match before_first_colon rest with
           | Some tag => Some (String c tag)
           | None => None
           end
  end.

(** [match[1] || null]: the tag of a path spec. *)
Definition pathSpec_format (pathSpec : string) : option string :=
  match before_first_colon pathSpec with
  | Some tag => if truthy (JStr tag) then Some tag else None
  | None => None
  end.

(** [format === 'json' ? dockerJsonLogParser : (line) => line] *)
Definition parser_of (JSON_parse : string -> option JsonValue)
    (format : option string) : string -> option string :=
  match format with
  | Some tag => if String.eqb tag "json" then dockerJsonLogParser JSON_parse else rawParser
  | None => rawParser
  end.

(** [parsedLine + '\n'], [parsedLine] being a string or [undefined]. *)
Definition plus_newline (parsedLine : option string) : string :=
  match parsedLine with
  | Some s => s +:+ nl
  | None => "undefined" +:+ nl
  end.

(** The [data] handler of a tail session: what one line makes it write to
    [parsedStream]. *)
Definition tail_on_data (parser : string -> option string) (line : string)
  : list string :=
  if truthy (JStr line) then [plus_newline (parser line)] else [].

(** The object [{ agent_id: agentId, content: line }]. *)
Definition mkRecord (agentId : JsVal) (line : string) : gmap string JsVal :=
  <["content" := JStr line]> (<["agent_id" := agentId]> ∅).

(** The [data] handler of the unified stream: the records it inserts for
    one line, each with a call of its own. *)
Definition unified_on_data (agentId : JsVal) (line : string)
  : list (gmap string JsVal) :=
  if truthy (JStr line) then [mkRecord agentId line] else [].

(** A chunk arrives at the splitter of the unified stream, which holds back
    [last]: the records inserted and the text held back afterwards. *)
Definition unified_write (agentId : JsVal) (last chunk : string)
  : list (gmap string JsVal) * string :=
  let '(lines, last') := split2_write last chunk in
  (flat_map (unified_on_data agentId) lines, last').

(** One line of a tail session, from the session's handler to the inserts,
    the splitter of the unified stream holding nothing back. *)
Definition inserted_for (agentId : JsVal) (parser : string -> option string)
    (line : string) : list (gmap string JsVal) * string :=
  match tail_on_data parser line with
  | [] => ([], "")
  | chunk :: _ => unified_write agentId "" chunk
  end.

End FormatRevision.

(* ===================================================================== *)
(** ** Further configurations and runs                                     *)
(* ===================================================================== *)

(** A payload with an empty [userId] and a usable [sub]. *)
Definition payload_blank_user : Payload :=
  PObject (<["userId" := JStr ""]> (<["sub" := JStr "u1"]> ∅)).

(** The same text as [cut_ex], delivered in one chunk. *)
Definition whole_ex : list Input :=
  [FileAdded fs_ex "/var/log/a.log";
   TailData 0 ("one" +:+ nl +:+ "two" +:+ nl +:+ "three" +:+ nl)].

(** The first line of a file is in flight. *)
Definition in_flight_ex : list Input :=
  [FileAdded fs_ex "/var/log/a.log"; TailData 0 ("one" +:+ nl)].

(** A container log line whose [log] value ends with a newline. *)
Definition docker_fields : gmap string JsVal :=
  <["log" := JStr ("listening on 8080" +:+ nl)]> (<["stream" := JStr "stdout"]> ∅).

(* ===================================================================== *)
(** ** The model on the scenarios of the design document                   *)
(* ===================================================================== *)

(** A path spec with a tag, without one, and with a leading colon. *)
Example pathSpec_path_cases :
  pathSpec_path "json:/var/log/x.log" = "/var/log/x.log" /\
  pathSpec_path "/var/log/x.log" = "/var/log/x.log" /\
  pathSpec_path ":x.log" = ":x.log".
Proof. repeat split. Qed.

(** Start-up with every option given and a token that carries a [sub] claim
    and the auth-id claim. *)
Example main_starts :
  main (fun _ => DecodeReturns (Some payload_ex)) (fun p => p)
       (Some "https://db.example") (Some "anon") client_ok
       (ParseReturns
          {| opt_jwt := Some "h.p.s"; opt_tableName := Some "logs";
             opt_databaseIdKey := Some "agent_id"; opt_authIdKey := Some "agentId" |}
          ["json:/var/log/a.log"; "-"])
  = Started env_ex ["/var/log/a.log"].
Proof. vm_compute. reflexivity. Qed.

(** No source, and no token. *)
Example main_refuses :
  main (fun _ => DecodeReturns (Some payload_ex)) (fun p => p) None None client_ok
       (ParseReturns
          {| opt_jwt := None; opt_tableName := None;
             opt_databaseIdKey := None; opt_authIdKey := None |} [])
  = Exited 1 /\
  main (fun _ => DecodeReturns (Some payload_ex)) (fun p => p) None None client_ok
       (ParseReturns
          {| opt_jwt := None; opt_tableName := None;
             opt_databaseIdKey := None; opt_authIdKey := None |} ["a.log"])
  = Failed "Error: No JWT token specified".
Proof. split; reflexivity. Qed.

(** An auth-id key that names no claim of the payload but a member every
    object inherits: the value read is that function, which is truthy, and
    resolution succeeds. *)
Example inherited_auth_id :
  resolveAuth (fun _ => DecodeReturns (Some payload_ex)) "h.p.s" "toString"
  = Ok (JStr "user-1", JFunction "toString", payload_ex).
Proof. vm_compute. reflexivity. Qed.

(** A payload that is a JSON string has no [userId] and inherits [sub] from
    [String.prototype]: that function is the identity. *)
Example string_payload_identity :
  option_map userId
    (match getCredentialsFromToken
             (fun _ => DecodeReturns
                         (Some (POther (fun k => if String.eqb k "sub"
                                                 then JFunction "sub" else JUndefined))))
             "h.p.s" with
     | Ok c => Some c
     | Throw _ => None
     end)
  = Some (JFunction "sub").
Proof. reflexivity. Qed.

(** The client library refuses a URL without a scheme: [main] throws. *)
Example main_bad_url :
  main (fun _ => DecodeReturns (Some payload_ex)) (fun p => p)
       (Some "db.example") (Some "anon")
       (fun url _ _ => if String.prefix "http" url then Ok tt
                       else Throw "Invalid supabaseUrl")
       (ParseReturns
          {| opt_jwt := Some "h.p.s"; opt_tableName := Some "logs";
             opt_databaseIdKey := Some "agent_id"; opt_authIdKey := Some "agentId" |}
          ["/var/log/a.log"])
  = Failed "Invalid supabaseUrl".
Proof. vm_compute. reflexivity. Qed.

(** A file discovered empty gets the text [hello], a newline and [world],
    and the stream is closed: two records, in that order. *)
Example hello_world :
  option_map (fun w => pushes_of 0 (trace w))
    (run env_ex ["/var/log/a.log"] true init
       [FileAdded fs_ex "/var/log/a.log";
        TailData 0 ("hello" +:+ nl +:+ "world");
        TailEnd 0])
  = Some [mkEntry env_ex "stdout" "hello"; mkEntry env_ex "stdout" "world"].
Proof. vm_compute. reflexivity. Qed.

(** The first line is sent at once; the second waits in the queue for the
    first insert to be answered. *)
Example first_line_sent_at_once :
  option_map (fun w => (inserts (trace w), lineQueue w, debouncer w))
    (run env_ex ["/var/log/a.log"] true init
       [FileAdded fs_ex "/var/log/a.log";
        TailData 0 ("one" +:+ nl +:+ "two" +:+ nl)])
  = Some ([("logs", [mkEntry env_ex "stdout" "one"])],
          [mkEntry env_ex "stdout" "two"], Flushing true).
Proof. vm_compute. reflexivity. Qed.

(* ===================================================================== *)
(** ** Credential resolution                                               *)
(* ===================================================================== *)

Lemma token_falsy (token : string) : truthy (JStr token) = false <-> token = "".
Proof.
  simpl. destruct (String.eqb_spec token ""); simpl; split; congruence.
Qed.

Lemma coalesce_identity (p : Payload) :
  coalesce (js_get p "userId") (coalesce (js_get p "sub") JNull) = identity_of p.
Proof.
  unfold coalesce, identity_of.
  destruct (nullish (js_get p "userId")); [|reflexivity].
  destruct (js_get p "sub"); reflexivity.
Qed.

(** The claim fails for that token: the auth-id claim is present, an
    identity can be had, the token is not empty, and resolution fails all
    the same. *)
Lemma C9_present_claim_rejected :
  ~ (resolution_fails decode_zero "h.p.s" "agentId" <->
     documented_failure (decode_zero "h.p.s") "h.p.s" "agentId").
Proof.
  intros [Hfail _].
  destruct Hfail as [Hempty | [Hid | Habs]].
  - exists "Error: No auth id found in payload". reflexivity.
  - discriminate Hempty.
  - apply Hid. exists payload_zero, (JStr "u1").
    split; [reflexivity|]. split; [right; reflexivity | reflexivity].
  - destruct Habs as (p & Hp & Hnone).
    injection Hp as <-. vm_compute in Hnone. discriminate Hnone.
Qed.

(** C9, amended.  Credential resolution fails exactly when the token is
    empty, the decoder throws or yields no payload, the identity (the
    [userId] property of the payload, or its [sub] property when [userId]
    is missing or null) is missing or falsy, or the value read from the
    payload under the auth-id key the caller names is missing or falsy
    (null, false, 0 or the empty string).  A property is read as the
    language reads it: the claim of that name, or else what the payload
    inherits under that name.  It succeeds exactly with that identity, that
    auth id and the payload of the token, both values truthy. *)
Theorem credential_resolution_exact (jwt_decode : string -> Decoded)
    (token authIdKey : string) :
  (resolution_fails jwt_decode token authIdKey <->
     token = "" \/
     (exists msg, jwt_decode token = DecodeThrows msg) \/
     jwt_decode token = DecodeReturns None \/
     (exists p, jwt_decode token = DecodeReturns (Some p) /\
                (truthy (identity_of p) = false \/
                 truthy (js_get p authIdKey) = false))) /\
  (forall uid authId p,
     resolveAuth jwt_decode token authIdKey = Ok (uid, authId, p) <->
     token <> "" /\ jwt_decode token = DecodeReturns (Some p) /\
     uid = identity_of p /\ truthy uid = true /\
     authId = js_get p authIdKey /\ truthy authId = true).
Proof.
  unfold resolution_fails, resolveAuth, getCredentialsFromToken.
  destruct (truthy (JStr token)) eqn:Htok; simpl.
  2:{ apply token_falsy in Htok. split.
      - split; [intros _; left; exact Htok | intros _; eauto].
      - intros uid authId p. split; [discriminate | intros [Hne _]; contradiction]. }
  assert (Hne : token <> "").
  { intros ->. discriminate Htok. }
  destruct (jwt_decode token) as [msg | [p |]] eqn:Hdec; simpl.
  - split.
    + split; [intros _; right; left; eauto | intros _; eauto].
    + intros uid authId p. split; [discriminate | intros (_ & H & _); discriminate].
  - rewrite coalesce_identity.
    destruct (truthy (identity_of p)) eqn:Hid; simpl.
    + destruct (truthy (js_get p authIdKey)) eqn:Hauth; simpl.
      * split.
        -- split.
           ++ intros [msg Hmsg]. discriminate.
           ++ intros [H | [[msg H] | [H | (p' & H & Hor)]]];
                try congruence.
              injection H as <-. destruct Hor; congruence.
        -- intros uid authId p'. split.
           ++ intros H. injection H as <- <- <-. repeat split; auto.
           ++ intros (_ & H & -> & _ & -> & _). injection H as <-. reflexivity.
      * split.
        -- split; [intros _ | intros _; eauto].
           right; right; right. exists p. auto.
        -- intros uid authId p'. split; [discriminate|].
           intros (_ & H & _ & _ & -> & Ht). injection H as <-. congruence.
    + split.
      * split; [intros _ | intros _; eauto].
        right; right; right. exists p. auto.
      * intros uid authId p'. split; [discriminate|].
        intros (_ & H & -> & Ht & _). injection H as <-. congruence.
  - split.
    + split; [intros _; right; right; left; reflexivity | intros _; eauto].
    + intros uid authId p. split; [discriminate | intros (_ & H & _); discriminate].
Qed.

(* ===================================================================== *)
(** ** The line splitter                                                   *)
(* ===================================================================== *)

Lemma string_app_cons (x : ascii) (a b : string) :
  String x a +:+ b = String x (a +:+ b).
Proof. reflexivity. Qed.

Lemma string_app_assoc (a b c : string) : (a +:+ b) +:+ c = a +:+ (b +:+ c).
Proof.
  induction a as [|x a IH]; [reflexivity|].
  rewrite !string_app_cons. now rewrite IH.
Qed.

Lemma string_app_nil_r (a : string) : a +:+ "" = a.
Proof.
  induction a as [|x a IH]; [reflexivity|].
  rewrite string_app_cons. now rewrite IH.
Qed.

Lemma newline_free_app (a b : string) :
  newline_free (a +:+ b) = newline_free a && newline_free b.
Proof.
  induction a as [|x a IH]; [reflexivity|].
  rewrite string_app_cons. simpl. rewrite IH. now rewrite andb_assoc.
Qed.

(** Splitting a text in two pieces and feeding them one after the other
    gives the lines of the whole text. *)
Lemma split2_write_app (a b last : string) :
  split2_write last (a +:+ b) =
  let '(l1, mid) := split2_write last a in
  let '(l2, rest) := split2_write mid b in
  (l1 ++ l2, rest).
Proof.
  revert last. induction a as [|c a IH]; intros last.
  - change ("" +:+ b) with b. simpl. destruct (split2_write last b); reflexivity.
  - rewrite string_app_cons. simpl. destruct (Ascii.eqb c newline).
    + rewrite IH. destruct (split2_write "" a) as [l1 mid].
      destruct (split2_write mid b) as [l2 rest]. reflexivity.
    + apply IH.
Qed.

(** Neither the lines nor the held-back text contain the delimiter. *)
Lemma split2_write_newline_free (chunk last : string) :
  newline_free last = true ->
  Forall (fun l => newline_free l = true) (split2_write last chunk).1 /\
  newline_free (split2_write last chunk).2 = true.
Proof.
  revert last. induction chunk as [|c chunk IH]; intros last Hlast; simpl.
  - split; [constructor | exact Hlast].
  - destruct (Ascii.eqb c newline) eqn:Hc.
    + destruct (IH "" eq_refl) as [Hl Hr].
      destruct (split2_write "" chunk) as [ls r]; simpl in *.
      split; [constructor; assumption | assumption].
    + apply IH. rewrite newline_free_app, Hlast. simpl. now rewrite Hc.
Qed.

(** A line written with its delimiter comes out of the next splitter as it
    went in, and nothing is held back. *)
Lemma split2_write_line (line last : string) :
  newline_free line = true ->
  split2_write last (line +:+ nl) = ([last +:+ line], "").
Proof.
  revert last. induction line as [|c line IH]; intros last Hl.
  - change ("" +:+ nl) with nl. simpl. now rewrite string_app_nil_r.
  - rewrite string_app_cons. simpl. simpl in Hl. apply andb_prop in Hl as [Hc Hl].
    apply negb_true_iff in Hc. rewrite Hc.
    rewrite IH by assumption. now rewrite string_app_assoc.
Qed.

Lemma split2_end_newline_free (last : string) :
  newline_free last = true ->
  Forall (fun l => newline_free l = true) (split2_end last).
Proof.
  intros H. unfold split2_end. destruct (truthy (JStr last)); repeat constructor.
  exact H.
Qed.

Lemma truthy_str (s : string) : truthy (JStr s) = true <-> s <> "".
Proof.
  simpl. destruct (String.eqb_spec s ""); simpl; split; congruence.
Qed.

(* ===================================================================== *)
(** ** Traces                                                              *)
(* ===================================================================== *)

Lemma pushes_app (a b : list Event) : pushes (a ++ b) = pushes a ++ pushes b.
Proof. apply flat_map_app. Qed.

Lemma pushes_of_app (sid : nat) (a b : list Event) :
  pushes_of sid (a ++ b) = pushes_of sid a ++ pushes_of sid b.
Proof. apply flat_map_app. Qed.

Lemma snapshots_app (a b : list Event) : snapshots (a ++ b) = snapshots a ++ snapshots b.
Proof. apply flat_map_app. Qed.

Lemma inserts_app (a b : list Event) : inserts (a ++ b) = inserts a ++ inserts b.
Proof. apply flat_map_app. Qed.

Lemma results_app (a b : list Event) : results (a ++ b) = results a ++ results b.
Proof. apply flat_map_app. Qed.

Lemma waits_app (a b : list Event) : waits (a ++ b) = waits a ++ waits b.
Proof. apply flat_map_app. Qed.

Lemma since_snapshot_app (a b : list Event) :
  since_snapshot (a ++ b) =
  fold_left (fun acc ev => match ev with
                           | EvPush _ e => acc ++ [e]
                           | EvSnapshot _ => []
                           | _ => acc
                           end) b (since_snapshot a).
Proof. apply fold_left_app. Qed.

Lemma attempts_app (a b : list Event) :
  attempts (a ++ b) =
  fold_left (fun n ev => match ev with
                         | EvSnapshot _ => 0
                         | EvInsert _ _ => S n
                         | _ => n
                         end) b (attempts a).
Proof. apply fold_left_app. Qed.

Lemma last_snapshot_app (a b : list Event) :
  last_snapshot (a ++ b) =
  match last_snapshot b with
  | Some s => Some s
  | None => last_snapshot a
  end.
Proof.
  unfold last_snapshot. rewrite snapshots_app.
  destruct (snapshots b) as [|x l] using rev_ind.
  - now rewrite app_nil_r.
  - now rewrite app_assoc, !last_snoc.
Qed.

Ltac trace_simpl :=
  repeat first
    [ rewrite pushes_app | rewrite pushes_of_app | rewrite snapshots_app
    | rewrite inserts_app | rewrite results_app | rewrite waits_app
    | rewrite since_snapshot_app | rewrite attempts_app
    | rewrite last_snapshot_app ];
  simpl; rewrite ?app_nil_r.

Lemma batches_follow_nil (table : string) : batches_follow table [].
Proof. intros [|? ?] ? ? ? H; discriminate H. Qed.

Lemma batches_follow_snoc (table : string) (tr : list Event) (ev : Event) :
  batches_follow table tr ->
  (forall t b, ev = EvInsert t b -> t = table /\ last_snapshot tr = Some b) ->
  batches_follow table (tr ++ [ev]).
Proof.
  intros Htr Hev tr1 t b tr2 Heq.
  destruct tr2 as [|x tr2 _] using rev_ind.
  - apply app_inj_tail in Heq as [-> ->]. now apply Hev.
  - rewrite app_comm_cons, app_assoc in Heq.
    apply app_inj_tail in Heq as [-> _]. now apply (Htr tr1 t b tr2).
Qed.

Lemma batches_follow_app (table : string) (tr evs : list Event) :
  batches_follow table tr ->
  (forall pre t b post, evs = pre ++ EvInsert t b :: post ->
     t = table /\ last_snapshot (tr ++ pre) = Some b) ->
  batches_follow table (tr ++ evs).
Proof.
  revert tr. induction evs as [|ev evs IH]; intros tr Htr Hevs.
  - now rewrite app_nil_r.
  - change (ev :: evs) with ([ev] ++ evs). rewrite app_assoc. apply IH.
    + apply batches_follow_snoc; [assumption|].
      intros t b ->. specialize (Hevs [] t b evs eq_refl).
      now rewrite app_nil_r in Hevs.
    + intros pre t b post ->. rewrite <- app_assoc.
      now apply (Hevs (ev :: pre) t b post).
Qed.

(* ===================================================================== *)
(** ** The invariant of the delivery coordinator                           *)
(* ===================================================================== *)

Ltac split_inv := split; [|split; [|split; [|split; [|split]]]].

Section Flow.
Variable env : Env.
Variable watchers : list string.
Variable fatal_stops : bool.

Lemma flow_inv_init : flow_inv env init.
Proof.
  unfold flow_inv; simpl. split_inv; auto using batches_follow_nil.
  unfold numRetries, attempts; simpl; lia.
Qed.

Lemma flow_inv_sessions (x : list Session) (w : World) :
  flow_inv env w -> flow_inv env (set_sessions x w).
Proof. exact (fun H => H). Qed.

Lemma flow_inv_gout (x : string) (w : World) :
  flow_inv env w -> flow_inv env (set_gout_last x w).
Proof. exact (fun H => H). Qed.

Lemma flow_inv_gerr (x : string) (w : World) :
  flow_inv env w -> flow_inv env (set_gerr_last x w).
Proof. exact (fun H => H). Qed.

Lemma concat_snoc {A} (ls : list (list A)) (l : list A) :
  concat (ls ++ [l]) = concat ls ++ l.
Proof. rewrite concat_app. simpl. now rewrite app_nil_r. Qed.

(** A line is pushed and a turn requested. *)
Lemma flow_inv_line (src : nat) (stream line : string) (w : World) :
  flow_inv env w -> flow_inv env (makeProcessLogLine env fatal_stops src stream line w).
Proof.
  intros Hw. unfold makeProcessLogLine.
  destruct (truthy (JStr line)); [|exact Hw].
  destruct Hw as (Hq & Hp & Hb & Hwt & Hat & Hc).
  set (e := mkEntry env stream line).
  unfold waitForTurn; simpl.
  destruct (debouncer w) as [|pending|] eqn:Hd; simpl in Hc.
  - (* idle: the flush starts at once, with this one entry *)
    destruct Hc as (Hf & Hq0 & Hlen).
    unfold run_turn, flush; simpl. rewrite Hq0; simpl.
    unfold flow_inv; simpl. rewrite Hf; simpl.
    replace (trace w ++ [EvPush src e] ++ [EvSnapshot [e]] ++
             [EvInsert (env_tableName env) [e]])
      with (trace w ++ [EvPush src e; EvSnapshot [e]; EvInsert (env_tableName env) [e]])
      by reflexivity.
    rewrite <- !app_assoc. simpl.
    split_inv.
    + trace_simpl. reflexivity.
    + trace_simpl. rewrite map_app, Hp, Hq0, ?app_nil_r, concat_snoc.
      reflexivity.
    + apply batches_follow_app; [assumption|].
      intros pre t b post Heq.
      destruct pre as [|? [|? [|? pre]]]; simplify_eq/=;
        try (destruct pre; discriminate).
      split; [reflexivity|]. trace_simpl. reflexivity.
    + trace_simpl. assumption.
    + trace_simpl. unfold numRetries. lia.
    + eexists. split; [reflexivity|]. simpl.
      repeat split; try (trace_simpl; try reflexivity).
      * discriminate.
      * unfold numRetries. lia.
      * rewrite !length_app. simpl. lia.
  - (* flushing: the request is absorbed *)
    destruct Hc as (f & Hf & Hne & Hi & Hls & Hatt & Hpq & Hlen).
    unfold flow_inv; simpl.
    split_inv.
    + trace_simpl. now rewrite Hq.
    + trace_simpl. rewrite map_app, Hp. simpl. now rewrite app_assoc.
    + apply batches_follow_snoc; [assumption | discriminate].
    + trace_simpl. assumption.
    + trace_simpl. assumption.
    + simpl. exists f. repeat split; try assumption.
      * trace_simpl. assumption.
      * trace_simpl. assumption.
      * intros H. now apply app_eq_nil in H as [_ H].
      * trace_simpl. assumption.
  - (* fatal: not reached by [step] *)
    unfold flow_inv; simpl. rewrite Hd. simpl.
    destruct Hc as (Hf & Hlen).
    split_inv.
    + trace_simpl. now rewrite Hq.
    + trace_simpl. rewrite map_app, Hp. simpl. now rewrite app_assoc.
    + apply batches_follow_snoc; [assumption | discriminate].
    + trace_simpl. assumption.
    + trace_simpl. assumption.
    + split; [assumption|]. trace_simpl. assumption.
Qed.

Lemma flow_inv_lines (src : nat) (stream : string) (lines : list string) (w : World) :
  flow_inv env w ->
  flow_inv env (fold_left (fun w line => makeProcessLogLine env fatal_stops src stream line w) lines w).
Proof.
  revert w. induction lines as [|l lines IH]; intros w Hw; simpl; [exact Hw|].
  apply IH. now apply flow_inv_line.
Qed.

Lemma flow_inv_stdout (src : nat) (chunks : list string) (w : World) :
  flow_inv env w -> flow_inv env (fold_left (global_stdout_write env fatal_stops src) chunks w).
Proof.
  revert w. induction chunks as [|c chunks IH]; intros w Hw; simpl; [exact Hw|].
  apply IH. unfold global_stdout_write.
  destruct (split2_write (gout_last w) c) as [lines last].
  now apply flow_inv_lines, flow_inv_gout.
Qed.

Lemma flow_inv_stderr (src : nat) (chunks : list string) (w : World) :
  flow_inv env w -> flow_inv env (fold_left (global_stderr_write env fatal_stops src) chunks w).
Proof.
  revert w. induction chunks as [|c chunks IH]; intros w Hw; simpl; [exact Hw|].
  apply IH. unfold global_stderr_write.
  destruct (split2_write (gerr_last w) c) as [lines last].
  now apply flow_inv_lines, flow_inv_gerr.
Qed.

Lemma flow_inv_session_lines (sid : nat) (lines : list string) (w : World) :
  flow_inv env w -> flow_inv env (session_lines env fatal_stops sid lines w).
Proof.
  intros Hw. unfold session_lines.
  destruct (session_writes lines) as [outs errs].
  now apply flow_inv_stderr, flow_inv_stdout.
Qed.

(** The awaited insert of the one flush in flight fails. *)
Lemma flow_inv_reply_error (w : World) (f : Flight) (pending : bool) :
  flow_inv env w -> debouncer w = Flushing pending -> flights w = [f] ->
  fl_pc f = AwaitInsert ->
  flow_inv env (emit [EvResult true; EvWait retryDelayMs]
                  (set_flights [set_pc AwaitTimer f] w)).
Proof.
  intros (Hq & Hp & Hb & Hwt & Hat & Hc) Hd Hf Hpc.
  rewrite Hd in Hc. destruct Hc as (f' & Hf' & Hne & Hi & Hls & Hatt & Hpq & Hlen).
  rewrite Hf in Hf'. injection Hf' as <-. rewrite Hpc in Hlen.
  unfold flow_inv; simpl. rewrite Hd. split_inv.
  - trace_simpl. assumption.
  - trace_simpl. assumption.
  - apply batches_follow_app; [assumption|].
    intros pre t b post Heq.
    destruct pre as [|? [|? [|? pre]]]; simplify_eq/=;
      try (destruct pre; discriminate).
  - trace_simpl. apply Forall_app. split; [assumption | repeat constructor].
  - trace_simpl. assumption.
  - exists (set_pc AwaitTimer f). simpl. repeat split; try assumption.
    + trace_simpl. now rewrite Hls.
    + trace_simpl. assumption.
    + trace_simpl. rewrite !length_app. simpl. lia.
Qed.

(** The flush in flight is over and the debouncer is told so. *)
Lemma flow_inv_turn_done (w1 : World) (pending : bool) :
  lineQueue w1 = since_snapshot (trace w1) ->
  map snd (pushes (trace w1)) = concat (snapshots (trace w1)) ++ lineQueue w1 ->
  batches_follow (env_tableName env) (trace w1) ->
  Forall (fun ms => ms = retryDelayMs) (waits (trace w1)) ->
  attempts (trace w1) <= numRetries ->
  debouncer w1 = Flushing pending -> flights w1 = [] ->
  (if pending then lineQueue w1 <> [] else lineQueue w1 = []) ->
  length (inserts (trace w1)) = length (results (trace w1)) ->
  flow_inv env (turn_done env fatal_stops w1).
Proof.
  intros Hq Hp Hb Hwt Hat Hd Hf Hpq Hlen.
  unfold turn_done. rewrite Hd.
  destruct pending.
  - (* the pending flush runs, with all that is queued *)
    unfold run_turn, flush; simpl.
    destruct (lineQueue w1) as [|e q] eqn:Hqueue; [contradiction|]. simpl.
    unfold flow_inv; simpl. rewrite <- !app_assoc. simpl. rewrite Hf. split_inv.
    + trace_simpl. reflexivity.
    + trace_simpl. now rewrite Hp, concat_snoc.
    + apply batches_follow_app; [assumption|].
      intros pre t b post Heq.
      destruct pre as [|? [|? pre]]; simplify_eq/=;
        try (destruct pre; discriminate).
      split; [reflexivity|]. trace_simpl. reflexivity.
    + trace_simpl. assumption.
    + trace_simpl. unfold numRetries. lia.
    + eexists. split; [reflexivity|]. simpl.
      repeat split; try (trace_simpl; try reflexivity).
      * discriminate.
      * unfold numRetries. lia.
      * rewrite !length_app. simpl. lia.
  - unfold flow_inv; simpl. split_inv; try assumption.
    repeat split; assumption.
Qed.

(** The awaited insert of the one flush in flight succeeds. *)
Lemma flow_inv_reply_ok (w : World) (f : Flight) (pending : bool) :
  flow_inv env w -> debouncer w = Flushing pending -> flights w = [f] ->
  fl_pc f = AwaitInsert ->
  flow_inv env (turn_done env fatal_stops (emit [EvResult false] (set_flights [] w))).
Proof.
  intros (Hq & Hp & Hb & Hwt & Hat & Hc) Hd Hf Hpc.
  rewrite Hd in Hc. destruct Hc as (f' & Hf' & Hne & Hi & Hls & Hatt & Hpq & Hlen).
  rewrite Hf in Hf'. injection Hf' as <-. rewrite Hpc in Hlen.
  apply (flow_inv_turn_done _ pending); simpl; try assumption.
  - trace_simpl. assumption.
  - trace_simpl. assumption.
  - apply batches_follow_snoc; [assumption | discriminate].
  - trace_simpl. assumption.
  - trace_simpl. assumption.
  - reflexivity.
  - trace_simpl. rewrite length_app. simpl. lia.
Qed.

(** The awaited timer of the one flush in flight fires. *)
Lemma flow_inv_timer (w : World) (f : Flight) (pending : bool) :
  flow_inv env w -> debouncer w = Flushing pending -> flights w = [f] ->
  fl_pc f = AwaitTimer ->
  flow_inv env
    (let '(w1, st) := loop_head env (fl_entries f) (S (fl_i f)) (set_flights [] w) in
     match st with
     | Suspended => w1
     | Returned => turn_done env fatal_stops w1
     | Threw => turn_failed env fatal_stops w1
     end).
Proof.
  intros (Hq & Hp & Hb & Hwt & Hat & Hc) Hd Hf Hpc.
  rewrite Hd in Hc. destruct Hc as (f' & Hf' & Hne & Hi & Hls & Hatt & Hpq & Hlen).
  rewrite Hf in Hf'. injection Hf' as <-. rewrite Hpc in Hlen.
  unfold loop_head.
  destruct (S (fl_i f) <? numRetries) eqn:Hlt; simpl.
  - apply Nat.ltb_lt in Hlt.
    unfold flow_inv; simpl. rewrite Hd. split_inv.
    + trace_simpl. assumption.
    + trace_simpl. assumption.
    + apply batches_follow_snoc; [assumption|].
      intros t b Heq. simplify_eq. auto.
    + trace_simpl. assumption.
    + trace_simpl. lia.
    + eexists. split; [reflexivity|]. simpl.
      repeat split; try assumption.
      * trace_simpl. now rewrite Hls.
      * trace_simpl. now rewrite Hatt.
      * trace_simpl. rewrite length_app. simpl. lia.
  - unfold turn_failed.
    assert (flow_inv env
              (turn_done env fatal_stops
                 (emit [EvThrow "failed to insert log after 10 retries"]
                    (set_flights [] w)))) as Hgoes_on.
    { apply (flow_inv_turn_done _ pending); simpl; try assumption.
      * trace_simpl. assumption.
      * trace_simpl. assumption.
      * apply batches_follow_snoc; [assumption | discriminate].
      * trace_simpl. assumption.
      * trace_simpl. assumption.
      * reflexivity.
      * trace_simpl. lia. }
    destruct fatal_stops; [clear Hgoes_on | exact Hgoes_on].
    unfold flow_inv; simpl. split_inv.
    + trace_simpl. assumption.
    + trace_simpl. assumption.
    + apply batches_follow_snoc; [assumption | discriminate].
    + trace_simpl. assumption.
    + trace_simpl. assumption.
    + split; [reflexivity|]. trace_simpl. lia.
Qed.

Lemma singleton_lookup (f : Flight) (k : nat) (g : Flight) :
  [f] !! k = Some g -> k = 0 /\ g = f.
Proof. destruct k as [|k]; simpl; [intros [= ->]; auto | destruct k; discriminate]. Qed.

Lemma flow_inv_step (w w' : World) (inp : Input) :
  flow_inv env w -> step env watchers fatal_stops w inp = Some w' -> flow_inv env w'.
Proof.
  intros Hw Hstep. unfold step in Hstep.
  destruct (debouncer w) as [|pending|] eqn:Hd; [| |discriminate].
  - (* idle: nothing is in flight *)
    assert (Hf : flights w = []).
    { destruct Hw as (_ & _ & _ & _ & _ & Hc). rewrite Hd in Hc. apply Hc. }
    destruct inp as [fs p|sid chunk|sid|chunk|k error|k].
    + destruct watchers; [discriminate|].
      destruct (addTailStream fs p); simplify_eq. now apply flow_inv_sessions.
    + destruct (sessions w !! sid) as [sess|]; [|discriminate].
      destruct (s_ended sess); [discriminate|].
      destruct (split2_write (s_last sess) chunk) as [lines last].
      simplify_eq. now apply flow_inv_session_lines, flow_inv_sessions.
    + destruct (sessions w !! sid) as [sess|]; [|discriminate].
      destruct (s_ended sess); [discriminate|].
      simplify_eq. now apply flow_inv_session_lines, flow_inv_sessions.
    + now simplify_eq.
    + rewrite Hf in Hstep. discriminate.
    + rewrite Hf in Hstep. discriminate.
  - assert (Hf : exists f, flights w = [f]).
    { destruct Hw as (_ & _ & _ & _ & _ & Hc). rewrite Hd in Hc.
      destruct Hc as (f & Hf & _). eauto. }
    destruct Hf as [f Hf].
    destruct inp as [fs p|sid chunk|sid|chunk|k error|k].
    + destruct watchers; [discriminate|].
      destruct (addTailStream fs p); simplify_eq. now apply flow_inv_sessions.
    + destruct (sessions w !! sid) as [sess|]; [|discriminate].
      destruct (s_ended sess); [discriminate|].
      destruct (split2_write (s_last sess) chunk) as [lines last].
      simplify_eq. now apply flow_inv_session_lines, flow_inv_sessions.
    + destruct (sessions w !! sid) as [sess|]; [|discriminate].
      destruct (s_ended sess); [discriminate|].
      simplify_eq. now apply flow_inv_session_lines, flow_inv_sessions.
    + now simplify_eq.
    + rewrite Hf in Hstep.
      destruct ([f] !! k) as [g|] eqn:Hk; [|discriminate].
      apply singleton_lookup in Hk as [-> ->].
      destruct (fl_pc f) eqn:Hpc; [|discriminate].
      destruct error; simplify_eq; simpl.
      * now apply (flow_inv_reply_error w f pending).
      * now apply (flow_inv_reply_ok w f pending).
    + rewrite Hf in Hstep.
      destruct ([f] !! k) as [g|] eqn:Hk; [|discriminate].
      apply singleton_lookup in Hk as [-> ->].
      destruct (fl_pc f) eqn:Hpc; [discriminate|].
      pose proof (flow_inv_timer w f pending Hw Hd Hf Hpc) as H.
      simpl in Hstep.
      destruct (loop_head env (fl_entries f) (S (fl_i f)) (set_flights [] w)) as [w1 st].
      now simplify_eq.
Qed.

Lemma run_snoc (w : World) (inputs : list Input) (inp : Input) :
  run env watchers fatal_stops w (inputs ++ [inp]) =
  match run env watchers fatal_stops w inputs with
  | Some w1 => step env watchers fatal_stops w1 inp
  | None => None
  end.
Proof.
  revert w. induction inputs as [|i inputs IH]; intros w; simpl.
  - now destruct (step env watchers fatal_stops w inp).
  - destruct (step env watchers fatal_stops w i); [apply IH | reflexivity].
Qed.

Lemma run_app (w : World) (xs ys : list Input) :
  run env watchers fatal_stops w (xs ++ ys) =
  match run env watchers fatal_stops w xs with
  | Some w1 => run env watchers fatal_stops w1 ys
  | None => None
  end.
Proof.
  revert w. induction xs as [|i xs IH]; intros w; simpl; [reflexivity|].
  destruct (step env watchers fatal_stops w i); [apply IH | reflexivity].
Qed.

Lemma flow_inv_run (inputs : list Input) (w w' : World) :
  flow_inv env w -> run env watchers fatal_stops w inputs = Some w' -> flow_inv env w'.
Proof.
  revert w. induction inputs as [|inp inputs IH]; intros w Hw Hrun; simpl in Hrun.
  - now simplify_eq.
  - destruct (step env watchers fatal_stops w inp) as [w1|] eqn:Hstep; [|discriminate].
    eapply IH; [|exact Hrun]. eapply flow_inv_step; eassumption.
Qed.

Lemma flow_inv_reachable (inputs : list Input) (w : World) :
  run env watchers fatal_stops init inputs = Some w -> flow_inv env w.
Proof. apply flow_inv_run, flow_inv_init. Qed.
End Flow.

(* ===================================================================== *)
(** ** The shape of the records                                            *)
(* ===================================================================== *)

Section Shape.
Variable env : Env.
Variable watchers : list string.
Variable fatal_stops : bool.

Lemma shape_inv_init : shape_inv env init.
Proof. repeat split; constructor. Qed.

Lemma shape_inv_loop_head (entries : list Entry) (i : nat) (w : World) :
  Forall (stdout_record env) entries -> shape_inv env w ->
  shape_inv env (loop_head env entries i w).1.
Proof.
  intros He (Hq & Hf & Ht). unfold loop_head.
  destruct (i <? numRetries); simpl; repeat split; simpl;
    repeat first [assumption | apply Forall_app; split | constructor].
Qed.

Lemma shape_inv_debouncer (d : Debouncer) (w : World) :
  shape_inv env w -> shape_inv env (set_debouncer d w).
Proof. exact (fun H => H). Qed.

Lemma shape_inv_run_turn (w : World) : shape_inv env w -> shape_inv env (run_turn env fatal_stops w).
Proof.
  intros (Hq & Hf & Ht). unfold run_turn, flush. simpl.
  destruct (0 <? length (lineQueue w)).
  - pose proof (shape_inv_loop_head (lineQueue w) 0
       (emit [EvSnapshot (lineQueue w)]
          (set_lineQueue [] (set_debouncer (Flushing false) w)))) as H.
    destruct (loop_head env (lineQueue w) 0 _) as [w1 st]. simpl in H.
    assert (shape_inv env w1) as Hw1.
    { apply H; [assumption|]. repeat split; simpl;
        repeat first [assumption | apply Forall_app; split | constructor]. }
    destruct st; assumption.
  - repeat split; simpl;
      repeat first [assumption | apply Forall_app; split | constructor].
Qed.

Lemma shape_inv_turn_done (w : World) : shape_inv env w -> shape_inv env (turn_done env fatal_stops w).
Proof.
  intros Hw. unfold turn_done.
  destruct (debouncer w) as [|[|]|]; auto using shape_inv_run_turn, shape_inv_debouncer.
Qed.

Lemma shape_inv_turn_failed (w : World) :
  shape_inv env w -> shape_inv env (turn_failed env fatal_stops w).
Proof.
  intros Hw. unfold turn_failed.
  pose proof (shape_inv_turn_done w Hw) as Hgoes_on.
  destruct fatal_stops; [exact Hw | exact Hgoes_on].
Qed.

Lemma shape_inv_line (src : nat) (line : string) (w : World) :
  shape_inv env w -> shape_inv env (makeProcessLogLine env fatal_stops src "stdout" line w).
Proof.
  intros (Hq & Hf & Ht). unfold makeProcessLogLine.
  destruct (truthy (JStr line)) eqn:Hl; [|repeat split; assumption].
  apply truthy_str in Hl.
  assert (stdout_record env (mkEntry env "stdout" line)) as He by (exists line; auto).
  match goal with |- shape_inv env (waitForTurn env fatal_stops ?w1) =>
    assert (shape_inv env w1) as Hw1 end.
  { repeat split; simpl;
      repeat first [assumption | apply Forall_app; split | constructor]. }
  unfold waitForTurn.
  match goal with |- context [debouncer ?w1] => destruct (debouncer w1) end;
    auto using shape_inv_run_turn, shape_inv_debouncer.
Qed.

Lemma shape_inv_stdout (src : nat) (chunks : list string) (w : World) :
  shape_inv env w -> shape_inv env (fold_left (global_stdout_write env fatal_stops src) chunks w).
Proof.
  revert w. induction chunks as [|c chunks IH]; intros w Hw; simpl; [exact Hw|].
  apply IH. unfold global_stdout_write.
  destruct (split2_write (gout_last w) c) as [lines last].
  assert (shape_inv env (set_gout_last last w)) as H by exact Hw.
  revert H. generalize (set_gout_last last w).
  induction lines as [|l lines IHl]; intros w0 Hw0; simpl; [exact Hw0|].
  apply IHl. now apply shape_inv_line.
Qed.

(** Nothing is ever written to a session's [stderrStream], so the [stderr]
    handler has nothing to make a record of. *)
Lemma session_lines_stdout_only (sid : nat) (lines : list string) (w : World) :
  session_lines env fatal_stops sid lines w =
  fold_left (global_stdout_write env fatal_stops sid) (flat_map tail_on_data lines) w.
Proof. reflexivity. Qed.

Lemma shape_inv_session_lines (sid : nat) (lines : list string) (w : World) :
  shape_inv env w -> shape_inv env (session_lines env fatal_stops sid lines w).
Proof. rewrite session_lines_stdout_only. apply shape_inv_stdout. Qed.

Lemma shape_inv_step (w w' : World) (inp : Input) :
  shape_inv env w -> step env watchers fatal_stops w inp = Some w' -> shape_inv env w'.
Proof.
  intros Hw Hstep. unfold step in Hstep.
  destruct (debouncer w) eqn:Hd; [| |discriminate].
  all: destruct inp as [fs p|sid chunk|sid|chunk|k error|k].
  all: try (destruct watchers; [discriminate|];
            destruct (addTailStream fs p); simplify_eq; exact Hw).
  all: try (destruct (sessions w !! sid) as [sess|]; [|discriminate];
            destruct (s_ended sess); [discriminate|];
            try destruct (split2_write (s_last sess) chunk) as [lines last];
            simplify_eq; apply shape_inv_session_lines; exact Hw).
  all: try (simplify_eq; exact Hw).
  all: destruct (flights w !! k) as [f|] eqn:Hk; [|discriminate].
  all: assert (Forall (stdout_record env) (fl_entries f)) as Hfe
         by (destruct Hw as (_ & Hf & _); exact (Forall_lookup_1 _ _ _ _ Hf Hk)).
  all: destruct Hw as (Hq & Hf & Ht).
  all: destruct (fl_pc f) eqn:Hpc; try discriminate.
  all: try (destruct error; simplify_eq;
            [ repeat split; simpl;
                repeat first [assumption | apply Forall_insert | apply Forall_app; split
                             | constructor]
            | apply shape_inv_turn_done; repeat split; simpl;
                repeat first [assumption | apply Forall_delete | apply Forall_app; split
                             | constructor] ]).
  all: pose proof (shape_inv_loop_head (fl_entries f) (S (fl_i f))
                     (set_flights (delete k (flights w)) w) Hfe) as H;
       destruct (loop_head env (fl_entries f) (S (fl_i f)) _) as [w1 st];
       simpl in H; simplify_eq;
       assert (shape_inv env w1) as Hw1
         by (apply H; repeat split; simpl;
             repeat first [assumption | apply Forall_delete | constructor]);
       destruct st; auto using shape_inv_turn_done, shape_inv_turn_failed.
Qed.

Lemma shape_inv_run (inputs : list Input) (w w' : World) :
  shape_inv env w -> run env watchers fatal_stops w inputs = Some w' -> shape_inv env w'.
Proof.
  revert w. induction inputs as [|inp inputs IH]; intros w Hw Hrun; simpl in Hrun.
  - now simplify_eq.
  - destruct (step env watchers fatal_stops w inp) as [w1|] eqn:Hstep; [|discriminate].
    eapply IH; [|exact Hrun]. eapply shape_inv_step; eassumption.
Qed.

Lemma shape_inv_reachable (inputs : list Input) (w : World) :
  run env watchers fatal_stops init inputs = Some w -> shape_inv env w.
Proof. apply shape_inv_run, shape_inv_init. Qed.
End Shape.

(* ===================================================================== *)
(** ** Sessions and the lines they enqueue                                 *)
(* ===================================================================== *)

Lemma delivered_app (sid : nat) (a b : list Input) :
  delivered sid (a ++ b) = delivered sid a +:+ delivered sid b.
Proof.
  induction a as [|inp a IH]; simpl; [reflexivity|].
  destruct inp; try exact IH.
  destruct (Nat.eqb sid0 sid); [|exact IH].
  now rewrite IH, string_app_assoc.
Qed.

Lemma ends_session_app (sid : nat) (a b : list Input) :
  ends_session sid (a ++ b) = ends_session sid a || ends_session sid b.
Proof. apply existsb_app. Qed.

Section Sessions.
Variable env : Env.
Variable watchers : list string.
Variable fatal_stops : bool.

(** What one call of the handler leaves untouched, and what it pushes. *)
Lemma line_frame (src : nat) (stream line : string) (w : World) :
  let w' := makeProcessLogLine env fatal_stops src stream line w in
  sessions w' = sessions w /\ gout_last w' = gout_last w /\
  forall sid, pushes_of sid (trace w') =
              pushes_of sid (trace w) ++ pushed_by env src sid stream line.
Proof.
  unfold makeProcessLogLine, pushed_by.
  destruct (truthy (JStr line)); simpl.
  2:{ repeat split. intros sid. now rewrite app_nil_r. }
  unfold waitForTurn, run_turn, flush, loop_head; simpl.
  destruct (debouncer w); simpl.
  - rewrite length_app; simpl.
    replace (0 <? length (lineQueue w) + 1) with true
      by (symmetry; apply Nat.ltb_lt; lia).
    simpl. repeat split. intros sid. trace_simpl.
    destruct (Nat.eqb src sid); trace_simpl; reflexivity.
  - repeat split. intros sid. trace_simpl. reflexivity.
  - repeat split. intros sid. trace_simpl. reflexivity.
Qed.

(** One line of a session goes through the session's handler, the pipe and
    the splitter of the global stream, and arrives at the [stdout] handler
    as it was, unless it is empty. *)
Lemma tail_line_written (sid : nat) (l : string) (w : World) :
  gout_last w = "" -> newline_free l = true ->
  fold_left (global_stdout_write env fatal_stops sid) (tail_on_data l) w =
  if truthy (JStr l)
  then makeProcessLogLine env fatal_stops sid "stdout" l (set_gout_last "" w)
  else w.
Proof.
  intros Hg Hl. unfold tail_on_data.
  destruct (truthy (JStr l)); [|reflexivity].
  cbn [fold_left]. unfold global_stdout_write.
  rewrite Hg, split2_write_line by assumption. reflexivity.
Qed.

Lemma session_lines_frame (sid : nat) (lines : list string) (w : World) :
  gout_last w = "" ->
  Forall (fun l => newline_free l = true) lines ->
  let w' := session_lines env fatal_stops sid lines w in
  sessions w' = sessions w /\ gout_last w' = "" /\
  forall sid', pushes_of sid' (trace w') =
               pushes_of sid' (trace w) ++
               if Nat.eqb sid sid'
               then map (mkEntry env "stdout") (List.filter (fun l => truthy (JStr l)) lines)
               else [].
Proof.
  rewrite session_lines_stdout_only.
  revert w. induction lines as [|l lines IH]; intros w Hg Hnl.
  - cbn. repeat split; [assumption|]. intros sid'.
    destruct (Nat.eqb sid sid'); now rewrite app_nil_r.
  - apply Forall_cons in Hnl as [Hl Hnl].
    cbn [flat_map List.filter]. cbv zeta.
    rewrite fold_left_app, tail_line_written by assumption.
    destruct (truthy (JStr l)) eqn:Ht.
    + destruct (line_frame sid "stdout" l (set_gout_last "" w)) as (Hs & Hgo & Hp).
      cbn in Hs, Hgo.
      destruct (IH (makeProcessLogLine env fatal_stops sid "stdout" l (set_gout_last "" w)))
        as (Hs' & Hgo' & Hp'); [assumption | assumption |].
      cbv zeta in Hs', Hgo', Hp'.
      split; [congruence|]. split; [assumption|].
      intros sid'. rewrite Hp', Hp. unfold pushed_by. rewrite Ht.
      rewrite <- app_assoc. f_equal.
      destruct (Nat.eqb sid sid'); reflexivity.
    + apply IH; assumption.
Qed.

Lemma session_inv_init : session_inv env [] init.
Proof. split; [reflexivity|]. intros sid. simpl. auto. Qed.

(** Replies and timers leave the sessions alone and push nothing. *)
Lemma coordinator_frame (w w' : World) (inp : Input) :
  match inp with SinkReply _ _ | TimerFired _ => True | _ => False end ->
  step env watchers fatal_stops w inp = Some w' ->
  sessions w' = sessions w /\ gout_last w' = gout_last w /\
  forall sid, pushes_of sid (trace w') = pushes_of sid (trace w).
Proof.
  intros Hinp Hstep. unfold step in Hstep.
  destruct (debouncer w) eqn:Hd; [| |discriminate].
  all: destruct inp as [| | | |k error|k]; try contradiction.
  all: destruct (flights w !! k) as [f|]; [|discriminate].
  all: destruct (fl_pc f); try discriminate.
  all: try destruct error.
  all: unfold turn_failed, turn_done, run_turn, flush, loop_head in Hstep;
    simpl in Hstep.
  all: repeat (first [ rewrite Hd in Hstep
                     | match type of Hstep with
                       | context [if ?b then _ else _] => destruct b
                       end ];
               simpl in Hstep).
  all: simplify_eq; simpl.
  all: repeat split; intros sid; trace_simpl; reflexivity.
Qed.

Lemma lines_of_app (a b : string) :
  lines_of (a +:+ b) false =
  lines_of a false ++
  List.filter (fun l => truthy (JStr l)) (split2_write (split2_write "" a).2 b).1.
Proof.
  unfold lines_of. rewrite split2_write_app.
  destruct (split2_write "" a) as [l1 mid]. simpl.
  destruct (split2_write mid b) as [l2 rest]. simpl.
  now rewrite !app_nil_r, List.filter_app.
Qed.

Lemma lines_of_end (a : string) :
  lines_of a true =
  lines_of a false ++
  List.filter (fun l => truthy (JStr l)) (split2_end (split2_write "" a).2).
Proof.
  unfold lines_of. destruct (split2_write "" a) as [l1 mid]. simpl.
  now rewrite app_nil_r, List.filter_app.
Qed.

Lemma held_back_newline_free (bytes : string) :
  newline_free (split2_write "" bytes).2 = true.
Proof. now apply split2_write_newline_free. Qed.

Lemma session_inv_step (inputs : list Input) (w w' : World) (inp : Input) :
  session_inv env inputs w -> step env watchers fatal_stops w inp = Some w' ->
  session_inv env (inputs ++ [inp]) w'.
Proof.
  intros [Hg Hs] Hstep.
  destruct inp as [fs p|sid chunk|sid|chunk|k error|k].
  - (* a new session *)
    unfold step in Hstep.
    assert (exists sess, addTailStream fs p = Some sess /\
                         w' = set_sessions (sessions w ++ [sess]) w) as (sess & Hadd & ->).
    { destruct (debouncer w); try discriminate;
        (destruct watchers; [discriminate|]);
        destruct (addTailStream fs p) as [sess|]; simplify_eq; eauto. }
    split; [exact Hg|]. intros sid. simpl.
    rewrite delivered_app, ends_session_app. simpl.
    rewrite string_app_nil_r, orb_false_r.
    specialize (Hs sid).
    destruct (decide (sid < length (sessions w))) as [Hlt|Hge].
    + rewrite lookup_app_l by assumption. exact Hs.
    + rewrite lookup_ge_None_2 in Hs by lia. destruct Hs as (Hd & He & Hp).
      unfold addTailStream in Hadd. destruct (lstat_size fs p); simplify_eq.
      destruct (decide (sid = length (sessions w))) as [->|Hne].
      * rewrite list_lookup_middle by reflexivity. simpl.
        rewrite Hd, He. auto.
      * rewrite lookup_ge_None_2 by (rewrite length_app; simpl; lia). auto.
  - (* bytes for session [sid] *)
    unfold step in Hstep.
    assert (exists sess, sessions w !! sid = Some sess /\ s_ended sess = false /\
              w' = session_lines env fatal_stops sid (split2_write (s_last sess) chunk).1
                     (set_sessions
                        (<[sid := set_session_last (split2_write (s_last sess) chunk).2
                                                   false sess]> (sessions w)) w))
      as (sess & Hsess & Hend & ->).
    { destruct (debouncer w); try discriminate;
        destruct (sessions w !! sid) as [sess|]; try discriminate;
        destruct (s_ended sess) eqn:He; try discriminate;
        destruct (split2_write (s_last sess) chunk) eqn:Hsp; simplify_eq;
        exists sess; rewrite Hsp; auto. }
    pose proof (Hs sid) as Hsid. rewrite Hsess, Hend in Hsid.
    destruct Hsid as (He & Hlast & Hp).
    match goal with |- session_inv _ _ (session_lines _ _ _ ?ls ?w0) =>
      destruct (session_lines_frame sid ls w0) as (Hs' & Hg' & Hp') end.
    { exact Hg. }
    { refine (proj1 (split2_write_newline_free _ _ _)).
      rewrite Hlast. apply held_back_newline_free. }
    simpl in Hs', Hp'.
    split; [exact Hg'|]. intros sid'. rewrite Hs', Hp'.
    rewrite delivered_app, ends_session_app. simpl.
    destruct (Nat.eqb_spec sid sid') as [<-|Hne].
    + rewrite list_lookup_insert_eq by (eapply lookup_lt_Some; eassumption).
      simpl. rewrite string_app_nil_r, orb_false_r, <- He.
      split; [reflexivity|]. split.
      * rewrite split2_write_app, Hlast.
        destruct (split2_write "" (delivered sid inputs)) as [l1 mid]. simpl.
        destruct (split2_write mid chunk); reflexivity.
      * rewrite Hp, lines_of_app, map_app, Hlast. reflexivity.
    + rewrite list_lookup_insert_ne by assumption.
      rewrite string_app_nil_r, orb_false_r, app_nil_r. apply Hs.
  - (* the end of session [sid] *)
    unfold step in Hstep.
    assert (exists sess, sessions w !! sid = Some sess /\ s_ended sess = false /\
              w' = session_lines env fatal_stops sid (split2_end (s_last sess))
                     (set_sessions (<[sid := set_session_last "" true sess]> (sessions w)) w))
      as (sess & Hsess & Hend & ->).
    { destruct (debouncer w); try discriminate;
        destruct (sessions w !! sid) as [sess|]; try discriminate;
        destruct (s_ended sess) eqn:He; try discriminate;
        simplify_eq; eauto. }
    pose proof (Hs sid) as Hsid. rewrite Hsess, Hend in Hsid.
    destruct Hsid as (He & Hlast & Hp).
    match goal with |- session_inv _ _ (session_lines _ _ _ ?ls ?w0) =>
      destruct (session_lines_frame sid ls w0) as (Hs' & Hg' & Hp') end.
    { exact Hg. }
    { apply split2_end_newline_free. rewrite Hlast. apply held_back_newline_free. }
    simpl in Hs', Hp'.
    split; [exact Hg'|]. intros sid'. rewrite Hs', Hp'.
    rewrite delivered_app, ends_session_app. simpl.
    rewrite string_app_nil_r.
    destruct (Nat.eqb_spec sid sid') as [<-|Hne].
    + rewrite list_lookup_insert_eq by (eapply lookup_lt_Some; eassumption).
      simpl. rewrite orb_true_r.
      split; [reflexivity|]. split; [reflexivity|].
      rewrite Hp, lines_of_end, map_app, Hlast. reflexivity.
    + rewrite list_lookup_insert_ne by assumption.
      rewrite orb_false_r, app_nil_r. apply Hs.
  - (* standard input *)
    assert (w' = w) as ->.
    { unfold step in Hstep. destruct (debouncer w); simplify_eq; reflexivity. }
    split; [exact Hg|]. intros sid.
    rewrite delivered_app, ends_session_app. simpl.
    rewrite string_app_nil_r, orb_false_r. apply Hs.
  - destruct (coordinator_frame w w' (SinkReply k error) I Hstep) as (Hs' & Hg' & Hp').
    split; [congruence|]. intros sid. rewrite Hs', Hp'.
    rewrite delivered_app, ends_session_app. simpl.
    rewrite string_app_nil_r, orb_false_r. apply Hs.
  - destruct (coordinator_frame w w' (TimerFired k) I Hstep) as (Hs' & Hg' & Hp').
    split; [congruence|]. intros sid. rewrite Hs', Hp'.
    rewrite delivered_app, ends_session_app. simpl.
    rewrite string_app_nil_r, orb_false_r. apply Hs.
Qed.

Lemma session_inv_reachable (inputs : list Input) (w : World) :
  run env watchers fatal_stops init inputs = Some w -> session_inv env inputs w.
Proof.
  revert w. induction inputs as [|inp inputs IH] using rev_ind; intros w Hrun.
  - simpl in Hrun. simplify_eq. apply session_inv_init.
  - rewrite run_snoc in Hrun.
    destruct (run env watchers fatal_stops init inputs) as [w1|]; [|discriminate].
    eapply session_inv_step; [apply IH; reflexivity | exact Hrun].
Qed.
End Sessions.

(* ===================================================================== *)
(** ** The delivery loop                                                   *)
(* ===================================================================== *)

Section Retry.
Variable env : Env.
Variable watchers : list string.
Variable fatal_stops : bool.

Lemma failures_succ (k : nat) :
  failures (S k) = [SinkReply 0 true; TimerFired 0] ++ failures k.
Proof. reflexivity. Qed.

Lemma concat_repeat_snoc {A} (x : list A) (k : nat) :
  concat (repeat x (S k)) = concat (repeat x k) ++ x.
Proof.
  induction k as [|k IH]; cbn [repeat concat] in *.
  - now rewrite app_nil_r.
  - rewrite <- app_assoc. f_equal. exact IH.
Qed.

Lemma failures_snoc (k : nat) :
  failures (S k) = failures k ++ [SinkReply 0 true; TimerFired 0].
Proof. apply concat_repeat_snoc. Qed.

Lemma failed_attempts_snoc (entries : list Entry) (k : nat) :
  concat (repeat (failed_attempt env entries) (S k)) =
  concat (repeat (failed_attempt env entries) k) ++ failed_attempt env entries.
Proof. apply concat_repeat_snoc. Qed.

(** The four things that can happen to the one flush in flight. *)
Lemma step_reply_error (w : World) (f : Flight) (pending : bool) :
  debouncer w = Flushing pending -> flights w = [f] -> fl_pc f = AwaitInsert ->
  step env watchers fatal_stops w (SinkReply 0 true) =
  Some (emit [EvResult true; EvWait retryDelayMs]
          (set_flights [set_pc AwaitTimer f] w)).
Proof.
  intros Hd Hf Hpc. unfold step. rewrite Hd, Hf.
  change ([f] !! 0) with (Some f). cbv beta iota. now rewrite Hpc.
Qed.

Lemma step_reply_ok (w : World) (f : Flight) (pending : bool) :
  debouncer w = Flushing pending -> flights w = [f] -> fl_pc f = AwaitInsert ->
  step env watchers fatal_stops w (SinkReply 0 false) =
  Some (turn_done env fatal_stops (emit [EvResult false] (set_flights [] w))).
Proof.
  intros Hd Hf Hpc. unfold step. rewrite Hd, Hf.
  change ([f] !! 0) with (Some f). cbv beta iota. now rewrite Hpc.
Qed.

Lemma step_timer_retry (w : World) (f : Flight) (pending : bool) :
  debouncer w = Flushing pending -> flights w = [f] -> fl_pc f = AwaitTimer ->
  S (fl_i f) < numRetries ->
  step env watchers fatal_stops w (TimerFired 0) =
  Some (emit [EvInsert (env_tableName env) (fl_entries f)]
          (set_flights [attempt (fl_entries f) (S (fl_i f))] w)).
Proof.
  intros Hd Hf Hpc Hlt. unfold step. rewrite Hd, Hf.
  change ([f] !! 0) with (Some f). cbv beta iota. rewrite Hpc.
  unfold loop_head. apply Nat.ltb_lt in Hlt. rewrite Hlt. reflexivity.
Qed.

Lemma step_timer_exhausted (w : World) (f : Flight) (pending : bool) :
  debouncer w = Flushing pending -> flights w = [f] -> fl_pc f = AwaitTimer ->
  S (fl_i f) = numRetries ->
  step env watchers fatal_stops w (TimerFired 0) =
  Some (turn_failed env fatal_stops
          (emit [EvThrow "failed to insert log after 10 retries"]
             (set_flights [] w))).
Proof.
  intros Hd Hf Hpc Hlt. unfold step. rewrite Hd, Hf.
  change ([f] !! 0) with (Some f). cbv beta iota. rewrite Hpc.
  unfold loop_head. rewrite Hlt, Nat.ltb_irrefl. reflexivity.
Qed.

(** [k] failed attempts in a row, the loop still having attempts left. *)
Lemma failures_run (entries : list Entry) (k : nat) :
  forall (w : World) (i : nat) (pending : bool) (pre : list Event),
    debouncer w = Flushing pending ->
    flights w = [attempt entries i] ->
    trace w = pre ++ [EvInsert (env_tableName env) entries] ->
    i + k < numRetries ->
    exists w',
      run env watchers fatal_stops w (failures k) = Some w' /\
      debouncer w' = Flushing pending /\
      flights w' = [attempt entries (i + k)] /\
      trace w' = pre ++ concat (repeat (failed_attempt env entries) k) ++
                 [EvInsert (env_tableName env) entries] /\
      lineQueue w' = lineQueue w.
Proof.
  induction k as [|k IH]; intros w i pending pre Hd Hf Ht Hlt.
  - exists w. rewrite Nat.add_0_r. simpl. auto.
  - rewrite failures_succ, run_app.
    cbn [run].
    rewrite (step_reply_error w _ pending Hd Hf eq_refl).
    rewrite (step_timer_retry _ (set_pc AwaitTimer (attempt entries i)) pending);
      [|exact Hd|reflexivity|reflexivity|simpl; lia].
    match goal with |- context [run env watchers fatal_stops ?w2 (failures k)] =>
      destruct (IH w2 (S i) pending (pre ++ failed_attempt env entries))
        as (w' & Hrun & Hd' & Hf' & Ht' & Hq') end.
    + exact Hd.
    + reflexivity.
    + cbn. rewrite Ht. now rewrite <- !app_assoc.
    + lia.
    + exists w'. split; [exact Hrun|]. split; [exact Hd'|].
      split; [rewrite Hf'; f_equal; f_equal; lia|].
      split; [|exact Hq'].
      rewrite Ht'. cbn [repeat concat]. now rewrite <- !app_assoc.
Qed.

(** The world right after the debouncer has let a flush run on a queue
    that is not empty. *)
Lemma run_turn_nonempty (w0 : World) :
  lineQueue w0 <> [] -> flights w0 = [] ->
  let w := run_turn env fatal_stops w0 in
  debouncer w = Flushing false /\
  flights w = [attempt (lineQueue w0) 0] /\
  trace w = (trace w0 ++ [EvSnapshot (lineQueue w0)]) ++
            [EvInsert (env_tableName env) (lineQueue w0)] /\
  lineQueue w = [].
Proof.
  intros Hne Hf. unfold run_turn, flush. cbn.
  destruct (lineQueue w0) as [|e q]; [contradiction|]. cbn.
  rewrite Hf. auto.
Qed.

Lemma waits_failed_attempts (entries : list Entry) (k : nat) :
  waits (concat (repeat (failed_attempt env entries) k)) = repeat retryDelayMs k.
Proof.
  induction k as [|k IH]; [reflexivity|].
  cbn [repeat concat]. rewrite waits_app, IH. reflexivity.
Qed.

Lemma inserts_failed_attempts (entries : list Entry) (k : nat) :
  inserts (concat (repeat (failed_attempt env entries) k)) =
  repeat (env_tableName env, entries) k.
Proof.
  induction k as [|k IH]; [reflexivity|].
  cbn [repeat concat]. rewrite inserts_app, IH. reflexivity.
Qed.

Lemma repeat_snoc {A} (x : A) (k : nat) : repeat x k ++ [x] = repeat x (S k).
Proof. induction k as [|k IH]; [reflexivity|]. cbn. now rewrite IH. Qed.

(** The sink fails [k] times, fewer than [numRetries], and then succeeds. *)
Lemma delivery_after_failures (w0 : World) (k : nat) :
  lineQueue w0 <> [] -> flights w0 = [] -> k < numRetries ->
  exists w',
    run env watchers fatal_stops (run_turn env fatal_stops w0) (failures k ++ [SinkReply 0 false]) = Some w' /\
    trace w' = trace w0 ++ EvSnapshot (lineQueue w0) ::
               concat (repeat (failed_attempt env (lineQueue w0)) k) ++
               [EvInsert (env_tableName env) (lineQueue w0); EvResult false] /\
    lineQueue w' = [] /\ flights w' = [] /\ debouncer w' = Idle.
Proof.
  intros Hne Hf Hk.
  destruct (run_turn_nonempty w0 Hne Hf) as (Hd & Hfl & Ht & Hq).
  destruct (failures_run (lineQueue w0) k (run_turn env fatal_stops w0) 0 false
              (trace w0 ++ [EvSnapshot (lineQueue w0)]) Hd Hfl Ht)
    as (w1 & Hrun & Hd1 & Hf1 & Ht1 & Hq1); [lia|].
  rewrite run_app, Hrun. cbn [run].
  rewrite (step_reply_ok w1 _ false Hd1 Hf1 eq_refl).
  unfold turn_done. cbn. rewrite Hd1.
  eexists. split; [reflexivity|]. cbn.
  rewrite Ht1, Hq1, Hq. repeat split.
  rewrite <- !app_assoc. reflexivity.
Qed.

Lemma exhausted_after (w0 : World) (k : nat) :
  S k = numRetries -> lineQueue w0 <> [] -> flights w0 = [] ->
  exists w',
    run env watchers fatal_stops (run_turn env fatal_stops w0) (failures (S k)) = Some w' /\
    trace w' = trace w0 ++ EvSnapshot (lineQueue w0) ::
               concat (repeat (failed_attempt env (lineQueue w0)) (S k)) ++
               [EvThrow "failed to insert log after 10 retries"] /\
    lineQueue w' = [] /\ flights w' = [] /\
    debouncer w' = (if fatal_stops then Fatal else Idle).
Proof.
  intros Hk Hne Hf.
  destruct (run_turn_nonempty w0 Hne Hf) as (Hd & Hfl & Ht & Hq).
  destruct (failures_run (lineQueue w0) k (run_turn env fatal_stops w0) 0 false
              (trace w0 ++ [EvSnapshot (lineQueue w0)]) Hd Hfl Ht)
    as (w1 & Hrun & Hd1 & Hf1 & Ht1 & Hq1); [lia|].
  rewrite failures_snoc, run_app, Hrun.
  cbn [run].
  rewrite (step_reply_error w1 _ false Hd1 Hf1 eq_refl).
  rewrite (step_timer_exhausted _ (set_pc AwaitTimer (attempt (lineQueue w0) (0 + k)))
             false); [|exact Hd1|reflexivity|reflexivity|exact Hk].
  eexists. split; [reflexivity|].
  assert (trace w0 ++ EvSnapshot (lineQueue w0) ::
            concat (repeat (failed_attempt env (lineQueue w0)) (S k)) ++
            [EvThrow "failed to insert log after 10 retries"] =
          (trace w1 ++ [EvResult true; EvWait retryDelayMs]) ++
            [EvThrow "failed to insert log after 10 retries"]) as ->.
  { rewrite Ht1, failed_attempts_snoc. rewrite <- !app_assoc. reflexivity. }
  unfold turn_failed, turn_done.
  cbn [trace lineQueue flights debouncer emit set_debouncer set_flights].
  rewrite Hd1.
  destruct fatal_stops;
    cbn [trace lineQueue flights debouncer emit set_debouncer set_flights];
    rewrite Hq1, Hq; repeat split.
Qed.

(** The sink fails every time. *)
Lemma delivery_exhausted (w0 : World) :
  lineQueue w0 <> [] -> flights w0 = [] ->
  exists w',
    run env watchers fatal_stops (run_turn env fatal_stops w0) (failures numRetries) = Some w' /\
    trace w' = trace w0 ++ EvSnapshot (lineQueue w0) ::
               concat (repeat (failed_attempt env (lineQueue w0)) numRetries) ++
               [EvThrow "failed to insert log after 10 retries"] /\
    lineQueue w' = [] /\ flights w' = [] /\
    debouncer w' = (if fatal_stops then Fatal else Idle).
Proof. exact (exhausted_after w0 9 eq_refl). Qed.
End Retry.

(* ===================================================================== *)
(** ** C1: the retry bound                                                 *)
(* ===================================================================== *)

Lemma results_failed_attempts (env : Env) (entries : list Entry) (k : nat) :
  results (concat (repeat (failed_attempt env entries) k)) = repeat true k.
Proof.
  induction k as [|k IH]; [reflexivity|].
  cbn [repeat concat]. rewrite results_app, IH. reflexivity.
Qed.

(** C1.  The delivery loop on a batch that is not empty.  The debouncer
    lets a flush run on the queue [lineQueue w0].  If the sink fails [k]
    times, [k < numRetries], and then succeeds, the loop makes [k] waits and
    [k + 1] insert calls, the last one successful, each with the snapshot
    taken at the start.  If the sink fails every time, the loop makes
    [numRetries] insert calls with that snapshot and then throws; no flush
    function is left to try again and the queue is empty: the batch is not
    put back.  This holds whether or not the process goes on after the
    throw. *)
Theorem retry_bound (env : Env) (watchers : list string) (fatal_stops : bool) (w0 : World) :
  lineQueue w0 <> [] -> flights w0 = [] ->
  (forall k, k < numRetries ->
     exists w' evs,
       run env watchers fatal_stops (run_turn env fatal_stops w0) (failures k ++ [SinkReply 0 false]) = Some w' /\
       trace w' = trace w0 ++ evs /\
       evs = EvSnapshot (lineQueue w0) ::
             concat (repeat (failed_attempt env (lineQueue w0)) k) ++
             [EvInsert (env_tableName env) (lineQueue w0); EvResult false] /\
       waits evs = repeat retryDelayMs k /\
       inserts evs = repeat (env_tableName env, lineQueue w0) (S k) /\
       results evs = repeat true k ++ [false] /\
       lineQueue w' = [] /\ flights w' = [] /\ debouncer w' = Idle) /\
  (exists w' evs,
     run env watchers fatal_stops (run_turn env fatal_stops w0) (failures numRetries) = Some w' /\
     trace w' = trace w0 ++ evs /\
     evs = EvSnapshot (lineQueue w0) ::
           concat (repeat (failed_attempt env (lineQueue w0)) numRetries) ++
           [EvThrow "failed to insert log after 10 retries"] /\
     inserts evs = repeat (env_tableName env, lineQueue w0) numRetries /\
     results evs = repeat true numRetries /\
     lineQueue w' = [] /\ flights w' = [] /\
     debouncer w' = (if fatal_stops then Fatal else Idle)).
Proof.
  intros Hne Hf. split.
  - intros k Hk.
    destruct (delivery_after_failures env watchers fatal_stops w0 k Hne Hf Hk)
      as (w' & Hrun & Ht & Hq & Hfl & Hd).
    exists w'. eexists. split; [exact Hrun|]. split; [exact Ht|].
    split; [reflexivity|].
    change (EvSnapshot ?b :: ?l) with ([EvSnapshot b] ++ l).
    rewrite !waits_app, !inserts_app, !results_app.
    rewrite waits_failed_attempts, inserts_failed_attempts, results_failed_attempts.
    cbn [waits inserts results flat_map app].
    rewrite app_nil_r, repeat_snoc. repeat split; assumption.
  - destruct (delivery_exhausted env watchers fatal_stops w0 Hne Hf)
      as (w' & Hrun & Ht & Hq & Hfl & Hd).
    exists w'. eexists. split; [exact Hrun|]. split; [exact Ht|].
    split; [reflexivity|].
    change (EvSnapshot ?b :: ?l) with ([EvSnapshot b] ++ l).
    rewrite !inserts_app, !results_app.
    rewrite inserts_failed_attempts, results_failed_attempts.
    cbn [inserts results flat_map app].
    rewrite !app_nil_r. repeat split; assumption.
Qed.

(** The scenario of the design document: three failures, then success. *)
Lemma retry_bound_witness :
  exists w' evs,
    run env_ex [] true (run_turn env_ex true queued_ex) (failures 3 ++ [SinkReply 0 false]) = Some w' /\
    trace w' = evs /\
    waits evs = [1000; 1000; 1000]%Z /\
    length (inserts evs) = 4.
Proof.
  assert (lineQueue queued_ex <> []) as Hne by discriminate.
  destruct (retry_bound env_ex [] true queued_ex Hne eq_refl) as [Hk _].
  destruct (Hk 3 ltac:(unfold numRetries; lia))
    as (w' & evs & Hrun & Ht & _ & Hw & Hi & _).
  exists w', evs. split; [exact Hrun|]. split; [exact Ht|].
  split; [exact Hw|]. rewrite Hi. reflexivity.
Defined.

(* ===================================================================== *)
(** ** C2: single flight                                                   *)
(* ===================================================================== *)






(* ===================================================================== *)
(** ** C3: where a tail session starts                                     *)
(* ===================================================================== *)

Lemma string_drop_app (pre rest : string) :
  string_drop (String.length pre) (pre +:+ rest) = rest.
Proof. induction pre as [|c pre IH]; [reflexivity | exact IH]. Qed.

(** For a path that names a regular file the session starts at the size of
    the file, and what the stream delivers is what is appended afterwards,
    whatever was there before. *)
Lemma regular_file_no_replay (fs : gmap string Node) (p pre : string) :
  fs !! p = Some (RegularFile pre) ->
  exists sess,
    addTailStream fs p = Some sess /\
    s_start sess = String.length pre /\
    forall appended,
      tail_bytes (<[p := RegularFile (pre +:+ appended)]> fs) sess = Some appended.
Proof.
  intros Hp. unfold addTailStream, lstat_size. rewrite Hp.
  eexists. split; [reflexivity|]. split; [reflexivity|].
  intros appended. unfold tail_bytes, readFile. cbn.
  rewrite lookup_insert_eq. now rewrite string_drop_app.
Qed.

(** C3, on a path that is a symbolic link.  [lstat] gives the size of the
    link, not of the file, so the stream opened on the file starts 7 bytes
    in, and bytes that were in the file before the session was opened are
    delivered, split into lines and pushed as records, although nothing has
    been appended to the file. *)
Theorem symlink_replays_old_content :
  exists sess bytes w,
    addTailStream fs_link "/logs/app.log" = Some sess /\
    s_start sess = 7 /\
    readFile fs_link "/logs/app.log" =
      Some ("old line one" +:+ nl +:+ "old line two" +:+ nl) /\
    tail_bytes fs_link sess = Some bytes /\
    bytes = "e one" +:+ nl +:+ "old line two" +:+ nl /\
    run env_ex ["/logs/app.log"] true init
        [FileAdded fs_link "/logs/app.log"; TailData 0 bytes] = Some w /\
    pushes_of 0 (trace w) =
      [mkEntry env_ex "stdout" "e one"; mkEntry env_ex "stdout" "old line two"].
Proof.
  eexists. eexists. eexists.
  split; [reflexivity|]. split; [reflexivity|]. split; [reflexivity|].
  split; [reflexivity|]. split; [reflexivity|].
  split; [vm_compute; reflexivity|]. vm_compute. reflexivity.
Qed.

(* ===================================================================== *)
(** ** C7: the standard input sentinel                                     *)
(* ===================================================================== *)

(** C7, on the source list that holds only the sentinel.  No watcher is set
    up for it and nothing reads standard input: whatever arrives there, the
    program stays in its initial state, with an empty queue and no call to
    the sink. *)
Theorem stdin_is_never_read (env : Env) (path_resolve : string -> string)
    (fatal_stops : bool) (chunks : list string) :
  watchers_of path_resolve ["-"] = [] /\
  run env (watchers_of path_resolve ["-"]) fatal_stops init (map StdinData chunks) = Some init /\
  lineQueue init = [] /\ inserts (trace init) = [].
Proof.
  split; [reflexivity|]. split; [|split; reflexivity].
  induction chunks as [|c chunks IH]; [reflexivity | exact IH].
Qed.

(** With no watcher, no event at all gets the program out of its initial
    state. *)
Lemma no_watcher_no_progress (env : Env) (fatal_stops : bool)
    (inputs : list Input) (w : World) :
  run env [] fatal_stops init inputs = Some w -> w = init.
Proof.
  induction inputs as [|inp inputs IH]; cbn.
  - now intros [= <-].
  - destruct inp; cbn; try discriminate. exact IH.
Qed.

(* ===================================================================== *)
(** ** Fields of a record                                                  *)
(* ===================================================================== *)

Lemma mkEntry_stream (env : Env) (stream line : string) :
  mkEntry env stream line !! "stream" = Some (JStr stream).
Proof. unfold mkEntry. apply lookup_insert_eq. Qed.

Lemma mkEntry_content (env : Env) (stream line : string) :
  mkEntry env stream line !! "content" = Some (JStr line).
Proof.
  unfold mkEntry. rewrite lookup_insert_ne by discriminate.
  apply lookup_insert_eq.
Qed.

Lemma mkEntry_foreign_key (env : Env) (stream line : string) :
  env_databaseIdKey env <> "content" -> env_databaseIdKey env <> "stream" ->
  mkEntry env stream line !! env_databaseIdKey env = Some (env_authId env).
Proof.
  intros Hc Hs. unfold mkEntry.
  rewrite !lookup_insert_ne by congruence. apply lookup_insert_eq.
Qed.

Lemma mkEntry_user_id (env : Env) (stream line : string) :
  env_databaseIdKey env <> "user_id" ->
  mkEntry env stream line !! "user_id" = Some (env_userId env).
Proof.
  intros Hu. unfold mkEntry.
  rewrite !lookup_insert_ne by congruence. apply lookup_insert_eq.
Qed.

Lemma record_of_stdout (env : Env) (watchers : list string) (fatal_stops : bool)
    (inputs : list Input) (w : World) (e : Entry) :
  run env watchers fatal_stops init inputs = Some w -> record_of w e ->
  exists line, line <> "" /\ e = mkEntry env "stdout" line.
Proof.
  intros Hrun He.
  destruct (shape_inv_reachable env watchers fatal_stops inputs w Hrun) as (Hq & _ & Ht).
  rewrite Forall_forall in Hq. rewrite Forall_forall in Ht.
  destruct He as [He | [[src He] | (t & b & Hb & He)]].
  - apply Hq. now apply list_elem_of_In.
  - apply (Ht (EvPush src e)). now apply list_elem_of_In.
  - specialize (Ht (EvInsert t b)). cbn in Ht.
    rewrite Forall_forall in Ht. apply Ht; now apply list_elem_of_In.
Qed.

(* ===================================================================== *)
(** ** C5: empty lines                                                     *)
(* ===================================================================== *)

(** C5.  A zero-length line makes the handler of a tail session write
    nothing, so nothing goes down the pipe, and makes the handler of the
    global stream return without creating a record, pushing anything or
    asking for a flush.  Every record in the queue, in a push or in a batch
    handed to the sink therefore has a content that is not empty. *)
Theorem empty_lines_dropped (env : Env) (watchers : list string) (fatal_stops : bool) :
  tail_on_data "" = [] /\
  (forall sid w, session_lines env fatal_stops sid [""] w = w) /\
  (forall src stream w, makeProcessLogLine env fatal_stops src stream "" w = w) /\
  (forall inputs w e,
     run env watchers fatal_stops init inputs = Some w -> record_of w e ->
     exists line, line <> "" /\ e !! "content" = Some (JStr line)).
Proof.
  split; [reflexivity|]. split; [reflexivity|]. split; [reflexivity|].
  intros inputs w e Hrun He.
  destruct (record_of_stdout env watchers fatal_stops inputs w e Hrun He) as (line & Hne & ->).
  exists line. split; [exact Hne | apply mkEntry_content].
Qed.

Lemma empty_lines_dropped_witness :
  exists w,
    run env_ex ["/var/log/a.log"] true init blank_ex = Some w /\
    forall e, record_of w e ->
              exists line, line <> "" /\ e !! "content" = Some (JStr line).
Proof.
  destruct (run env_ex ["/var/log/a.log"] true init blank_ex) as [w|] eqn:Hrun;
    [|vm_compute in Hrun; discriminate].
  exists w. split; [reflexivity|]. intros e He.
  destruct (empty_lines_dropped env_ex ["/var/log/a.log"] true) as (_ & _ & _ & H).
  exact (H blank_ex w e Hrun He).
Defined.

(* ===================================================================== *)
(** ** C10: the stream tag                                                 *)
(* ===================================================================== *)

(** C10.  The handler of a tail session writes nothing to the session's
    [stderrStream], whatever the lines; so the [stderr] handler is never
    run, and every record in the queue, in a push or in a batch handed to
    the sink has the stream tag [stdout]. *)
Theorem stream_tag_is_stdout (env : Env) (watchers : list string) (fatal_stops : bool) :
  (forall lines, (session_writes lines).2 = []) /\
  (forall inputs w e,
     run env watchers fatal_stops init inputs = Some w -> record_of w e ->
     e !! "stream" = Some (JStr "stdout")).
Proof.
  split; [reflexivity|].
  intros inputs w e Hrun He.
  destruct (record_of_stdout env watchers fatal_stops inputs w e Hrun He) as (line & Hne & ->).
  apply mkEntry_stream.
Qed.

Lemma stream_tag_is_stdout_witness :
  exists w,
    run env_ex ["/var/log/a.log"] true init burst_ex = Some w /\
    forall e, record_of w e -> e !! "stream" = Some (JStr "stdout").
Proof.
  destruct (run env_ex ["/var/log/a.log"] true init burst_ex) as [w|] eqn:Hrun;
    [|vm_compute in Hrun; discriminate].
  exists w. split; [reflexivity|]. intros e He.
  exact (proj2 (stream_tag_is_stdout env_ex ["/var/log/a.log"] true) burst_ex w e Hrun He).
Defined.

(* ===================================================================== *)
(** ** C6: the fields of a record                                          *)
(* ===================================================================== *)

(** The claim fails for that start-up: the one record handed to the sink
    has the auth id under [user_id], not the identity. *)
Lemma C6_key_collision :
  main (fun _ => DecodeReturns (Some payload_ex)) (fun p => p)
       (Some "https://db.example") (Some "anon") client_ok
       (ParseReturns opts_collide ["/var/log/a.log"])
  = Started env_collide ["/var/log/a.log"] /\
  exists w e,
    run env_collide ["/var/log/a.log"] true init
        [FileAdded fs_ex "/var/log/a.log"; TailData 0 ("hello" +:+ nl)] = Some w /\
    In (EvInsert "logs" [e]) (trace w) /\
    e !! "user_id" = Some (JStr "agent-7") /\
    forall line, ~ carries_all env_collide "stdout" line e.
Proof.
  split; [vm_compute; reflexivity|].
  eexists. exists (mkEntry env_collide "stdout" "hello").
  split; [vm_compute; reflexivity|].
  split; [vm_compute; auto|].
  split; [vm_compute; reflexivity|].
  intros line (Hu & _). vm_compute in Hu. discriminate Hu.
Qed.

(** C6, amended.  Every record handed to the sink carries the line, which
    is not empty, under [content] and the tag [stdout] under [stream]; when
    the field the caller names is none of [user_id], [content] and
    [stream], it also carries the identity under [user_id] and the auth id
    under the field the caller names. *)
Theorem record_fields (env : Env) (watchers : list string) (fatal_stops : bool)
    (inputs : list Input) (w : World) (t : string) (b : list Entry) (e : Entry) :
  run env watchers fatal_stops init inputs = Some w ->
  In (EvInsert t b) (trace w) -> In e b ->
  exists line,
    line <> "" /\
    e !! "content" = Some (JStr line) /\
    e !! "stream" = Some (JStr "stdout") /\
    (~ In (env_databaseIdKey env) literal_fields -> carries_all env "stdout" line e).
Proof.
  intros Hrun Ht He.
  destruct (record_of_stdout env watchers fatal_stops inputs w e Hrun) as (line & Hne & ->).
  { right; right; eauto. }
  exists line. split; [exact Hne|].
  split; [apply mkEntry_content|]. split; [apply mkEntry_stream|].
  intros Hkey. unfold literal_fields in Hkey. cbn in Hkey.
  repeat split.
  - apply mkEntry_user_id. intros H. apply Hkey. auto.
  - apply mkEntry_foreign_key; intros H; apply Hkey; auto.
  - apply mkEntry_content.
  - apply mkEntry_stream.
Qed.

Lemma record_fields_witness :
  exists w e line,
    run env_ex ["/var/log/a.log"] true init
        [FileAdded fs_ex "/var/log/a.log"; TailData 0 ("hello" +:+ nl)] = Some w /\
    In (EvInsert "logs" [e]) (trace w) /\
    line <> "" /\ carries_all env_ex "stdout" line e.
Proof.
  destruct (run env_ex ["/var/log/a.log"] true init
              [FileAdded fs_ex "/var/log/a.log"; TailData 0 ("hello" +:+ nl)])
    as [w|] eqn:Hrun; [|vm_compute in Hrun; discriminate].
  assert (In (EvInsert "logs" [mkEntry env_ex "stdout" "hello"]) (trace w)) as Hin
    by (vm_compute in Hrun; injection Hrun as <-; vm_compute; auto).
  destruct (record_fields env_ex ["/var/log/a.log"] true _ w "logs" _
              (mkEntry env_ex "stdout" "hello") Hrun Hin (or_introl eq_refl))
    as (line & Hne & _ & _ & Hall).
  exists w, (mkEntry env_ex "stdout" "hello"), line.
  split; [reflexivity|]. split; [exact Hin|]. split; [exact Hne|].
  apply Hall. cbn. intros [H|[H|[H|[]]]]; discriminate H.
Defined.

(* ===================================================================== *)
(** ** C8: the retry constants                                             *)
(* ===================================================================== *)

(** The claim fails: the program declares no option for the delay or for
    the number of attempts. *)
Lemma C8_no_retry_options : ~ retry_options_recognized.
Proof.
  intros [H _]. cbn in H.
  destruct H as [H|[H|[H|[H|[]]]]]; discriminate H.
Qed.

(** C8, amended.  Whatever the configuration the program was started with,
    every wait between two attempts is of 1000 ms and no batch is sent more
    than 10 times; a batch that fails every time is sent exactly 10 times
    before the flush gives up. *)
Theorem retry_constants_fixed (env : Env) (watchers : list string) (fatal_stops : bool) :
  retryDelayMs = 1000%Z /\ numRetries = 10 /\
  (forall inputs w,
     run env watchers fatal_stops init inputs = Some w ->
     Forall (fun ms => ms = 1000%Z) (waits (trace w)) /\
     attempts (trace w) <= 10) /\
  (forall w0,
     lineQueue w0 <> [] -> flights w0 = [] ->
     exists w',
       run env watchers fatal_stops (run_turn env fatal_stops w0) (failures 10) = Some w' /\
       debouncer w' = (if fatal_stops then Fatal else Idle) /\
       inserts (trace w') =
         inserts (trace w0) ++ repeat (env_tableName env, lineQueue w0) 10 /\
       waits (trace w') = waits (trace w0) ++ repeat 1000%Z 10).
Proof.
  split; [reflexivity|]. split; [reflexivity|]. split.
  - intros inputs w Hrun.
    destruct (flow_inv_reachable env watchers fatal_stops inputs w Hrun)
      as (_ & _ & _ & Hw & Ha & _).
    split; assumption.
  - intros w0 Hne Hf.
    destruct (delivery_exhausted env watchers fatal_stops w0 Hne Hf)
      as (w' & Hrun & Ht & _ & _ & Hd).
    exists w'. split; [exact Hrun|]. split; [exact Hd|].
    rewrite Ht.
    change (EvSnapshot ?b :: ?l) with ([EvSnapshot b] ++ l).
    rewrite !inserts_app, !waits_app.
    rewrite inserts_failed_attempts, waits_failed_attempts.
    cbn [inserts waits flat_map app]. rewrite !app_nil_r. auto.
Qed.

Lemma retry_constants_fixed_witness :
  exists w',
    run env_ex [] true (run_turn env_ex true queued_ex) (failures 10) = Some w' /\
    debouncer w' = Fatal /\
    length (inserts (trace w')) = 10 /\
    waits (trace w') = repeat 1000%Z 10.
Proof.
  assert (lineQueue queued_ex <> []) as Hne by discriminate.
  destruct (retry_constants_fixed env_ex [] true) as (_ & _ & _ & H).
  destruct (H queued_ex Hne eq_refl) as (w' & Hrun & Hd & Hi & Hw).
  exists w'. split; [exact Hrun|]. split; [exact Hd|].
  split; [rewrite Hi; reflexivity | exact Hw].
Defined.

(* ===================================================================== *)
(** ** C4: order                                                           *)
(* ===================================================================== *)

Lemma pushes_of_pushes (sid : nat) (tr : list Event) :
  pushes_of sid tr =
  map snd (List.filter (fun p => Nat.eqb p.1 sid) (pushes tr)).
Proof.
  induction tr as [|ev tr IH]; [reflexivity|].
  change (ev :: tr) with ([ev] ++ tr).
  rewrite pushes_of_app, pushes_app, List.filter_app, map_app, IH.
  f_equal. destruct ev; try reflexivity.
  cbn. destruct (Nat.eqb src sid); reflexivity.
Qed.

Lemma mkEntry_inj (env : Env) (stream l1 l2 : string) :
  mkEntry env stream l1 = mkEntry env stream l2 -> l1 = l2.
Proof.
  intros H. apply (f_equal (fun m => m !! "content")) in H.
  rewrite !mkEntry_content in H. congruence.
Qed.

(** C4.  In every run, the records pushed for one session are, in the order
    of the pushes, the non-empty lines of the bytes the session delivered,
    in the order of the text: a line appended before another one of the
    same file is pushed before it.  The pushes, in their order, are the
    snapshots in their order followed by the queue, and every insert sends
    the snapshot before it: the order of the pushes is the order in and
    across the batches.  Between two files the order is that of arrival:
    the same appends to two files can be pushed either way round. *)
Theorem per_source_order :
  (forall env watchers fatal_stops inputs w,
     run env watchers fatal_stops init inputs = Some w ->
     (forall sid sess,
        sessions w !! sid = Some sess ->
        map snd (List.filter (fun p => Nat.eqb p.1 sid) (pushes (trace w))) =
        map (mkEntry env "stdout") (lines_of (delivered sid inputs) (s_ended sess))) /\
     map snd (pushes (trace w)) = concat (snapshots (trace w)) ++ lineQueue w /\
     (forall tr1 t b tr2,
        trace w = tr1 ++ EvInsert t b :: tr2 -> last_snapshot tr1 = Some b)) /\
  (exists env watchers fatal_stops w1 w2,
     run env watchers fatal_stops init a_then_b = Some w1 /\
     run env watchers fatal_stops init b_then_a = Some w2 /\
     (forall sid, delivered sid a_then_b = delivered sid b_then_a) /\
     map snd (pushes (trace w1)) <> map snd (pushes (trace w2))).
Proof.
  split.
  - intros env watchers fatal_stops inputs w Hrun.
    destruct (flow_inv_reachable env watchers fatal_stops inputs w Hrun)
      as (_ & Hp & Hb & _).
    destruct (session_inv_reachable env watchers fatal_stops inputs w Hrun) as [_ Hs].
    split; [|split; [exact Hp|]].
    + intros sid sess Hsess. specialize (Hs sid). rewrite Hsess in Hs.
      rewrite <- pushes_of_pushes. apply Hs.
    + intros tr1 t b tr2 Heq. now apply (Hb tr1 t b tr2).
  - exists env_ex, ["/var/log"], true.
    destruct (run env_ex ["/var/log"] true init a_then_b) as [w1|] eqn:H1;
      [|vm_compute in H1; discriminate].
    destruct (run env_ex ["/var/log"] true init b_then_a) as [w2|] eqn:H2;
      [|vm_compute in H2; discriminate].
    exists w1, w2. split; [reflexivity|]. split; [reflexivity|]. split.
    + intros [|[|sid]]; reflexivity.
    + assert (map snd (pushes (trace w1)) =
              [mkEntry env_ex "stdout" "from a"; mkEntry env_ex "stdout" "from b"]) as ->
        by (vm_compute in H1; injection H1 as <-; reflexivity).
      assert (map snd (pushes (trace w2)) =
              [mkEntry env_ex "stdout" "from b"; mkEntry env_ex "stdout" "from a"]) as ->
        by (vm_compute in H2; injection H2 as <-; reflexivity).
      intros H. apply (f_equal (hd ∅)) in H.
      change (mkEntry env_ex "stdout" "from a" = mkEntry env_ex "stdout" "from b") in H.
      apply mkEntry_inj in H. discriminate H.
Qed.

Lemma per_source_order_witness :
  exists w,
    run env_ex ["/var/log"] true init cut_ex = Some w /\
    map snd (List.filter (fun p => Nat.eqb p.1 0) (pushes (trace w))) =
    map (mkEntry env_ex "stdout") ["one"; "two"; "three"].
Proof.
  destruct (run env_ex ["/var/log"] true init cut_ex) as [w|] eqn:Hrun;
    [|vm_compute in Hrun; discriminate].
  exists w. split; [reflexivity|].
  destruct (proj1 per_source_order env_ex ["/var/log"] true cut_ex w Hrun) as (Hs & _).
  assert (exists sess, sessions w !! 0 = Some sess /\ s_ended sess = false)
    as (sess & Hsess & Hend)
    by (vm_compute in Hrun; injection Hrun as <-; eexists; split; reflexivity).
  rewrite (Hs 0 sess Hsess), Hend. reflexivity.
Defined.

(* ===================================================================== *)
(** ** The cookie store: reading back what was set                         *)
(* ===================================================================== *)

Section CookieStore.
Import LocalCookieStore.

Lemma map_get_set_eq (name : string) (c : Cookie) (m : list (string * Cookie)) :
  map_get name (map_set name c m) = Some c.
Proof.
  induction m as [|[k c'] m IH]; simpl.
  - now rewrite String.eqb_refl.
  - destruct (String.eqb k name) eqn:Hk; simpl.
    + now rewrite String.eqb_refl.
    + now rewrite Hk.
Qed.

Lemma map_get_set_ne (name name' : string) (c : Cookie) (m : list (string * Cookie)) :
  name' <> name -> map_get name' (map_set name c m) = map_get name' m.
Proof.
  intros Hne. induction m as [|[k c'] m IH]; simpl.
  - destruct (String.eqb_spec name name'); congruence.
  - destruct (String.eqb_spec k name) as [->|Hk]; simpl.
    + destruct (String.eqb_spec name name'); congruence.
    + destruct (String.eqb k name'); [reflexivity | exact IH].
Qed.

Lemma get_after_set (name : string) (v opts : JsVal) (m : list (string * Cookie)) :
  get name (set name v opts m) = v.
Proof. unfold get, set. now rewrite map_get_set_eq. Qed.

(** X1.  A cookie that has been set is there and reads back with the value
    it was set to, whatever was stored under the name before; no other
    name is affected. *)
Theorem set_then_get (name : string) (v opts : JsVal) (m : list (string * Cookie)) :
  get name (set name v opts m) = v /\
  has name (set name v opts m) = true /\
  (forall name', name' <> name ->
     get name' (set name v opts m) = get name' m /\
     has name' (set name v opts m) = has name' m).
Proof.
  unfold get, has, set. rewrite map_get_set_eq. repeat split.
  - now rewrite map_get_set_ne.
  - now rewrite map_get_set_ne.
Qed.

Lemma map_get_delete_eq (name : string) (m : list (string * Cookie)) :
  map_get name (delete name m) = None.
Proof.
  induction m as [|[k c] m IH]; simpl; [reflexivity|].
  destruct (String.eqb k name) eqn:Hk; simpl; [exact IH|]. now rewrite Hk.
Qed.

Lemma map_get_delete_ne (name name' : string) (m : list (string * Cookie)) :
  name' <> name -> map_get name' (delete name m) = map_get name' m.
Proof.
  intros Hne. induction m as [|[k c] m IH]; simpl; [reflexivity|].
  destruct (String.eqb_spec k name) as [->|Hk]; simpl.
  - destruct (String.eqb_spec name name'); congruence.
  - destruct (String.eqb k name'); [reflexivity | exact IH].
Qed.

(** X2.  A deleted cookie is gone: [has] is false and [get] gives
    [undefined]; the other cookies stay as they were.  [has] can be true
    where [get] gives [undefined]: a cookie set to [undefined] is there. *)
Theorem delete_then_get (name : string) (m : list (string * Cookie)) :
  get name (delete name m) = JUndefined /\
  has name (delete name m) = false /\
  (forall name', name' <> name ->
     get name' (delete name m) = get name' m /\
     has name' (delete name m) = has name' m) /\
  (forall opts, has name (set name JUndefined opts m) = true /\
                get name (set name JUndefined opts m) = JUndefined).
Proof.
  unfold get, has. rewrite map_get_delete_eq. repeat split.
  - now rewrite map_get_delete_ne.
  - now rewrite map_get_delete_ne.
  - unfold set. now rewrite map_get_set_eq.
  - unfold set. now rewrite map_get_set_eq.
Qed.

Lemma map_set_keys (name : string) (c : Cookie) (m : list (string * Cookie)) :
  map fst (map_set name c m) =
  if has name m then map fst m else map fst m ++ [name].
Proof.
  unfold has. induction m as [|[k c'] m IH]; simpl; [reflexivity|].
  destruct (String.eqb_spec k name) as [->|Hk]; simpl; [reflexivity|].
  rewrite IH. now destruct (map_get name m).
Qed.

Lemma has_in_keys (name : string) (m : list (string * Cookie)) :
  has name m = true <-> In name (map fst m).
Proof.
  unfold has. induction m as [|[k c] m IH]; simpl.
  - split; [discriminate | tauto].
  - destruct (String.eqb_spec k name) as [->|Hk].
    + split; auto.
    + rewrite IH. split; [auto | intros [H|H]; congruence].
Qed.

Lemma apply_op_nodup (op : Op) (m : list (string * Cookie)) :
  NoDup (map fst m) -> NoDup (map fst (apply_op m op)).
Proof.
  intros Hm. destruct op as [name v opts|name]; simpl.
  - unfold set. rewrite map_set_keys.
    destruct (has name m) eqn:Hh; [exact Hm|].
    apply NoDup_app. split; [exact Hm|]. split; [|apply NoDup_singleton].
    intros x Hx Hx'. apply list_elem_of_In in Hx, Hx'.
    destruct Hx' as [<-|[]]. apply has_in_keys in Hx. congruence.
  - unfold delete. induction m as [|[k c] m IHm]; simpl; [constructor|].
    simpl in Hm. apply NoDup_cons in Hm as [Hk Hm].
    destruct (String.eqb k name); simpl; [now apply IHm|].
    apply NoDup_cons. split; [|now apply IHm].
    intros Hin. apply Hk. apply list_elem_of_In in Hin. apply list_elem_of_In.
    apply in_map_iff in Hin as ([k' c'] & <- & Hin). apply filter_In in Hin as [Hin _].
    apply in_map_iff. exists (k', c'). auto.
Qed.

Lemma keys_nodup (ops : list Op) : NoDup (map fst (after ops)).
Proof.
  unfold after. assert (NoDup (map fst empty)) as H by constructor.
  revert H. generalize empty.
  induction ops as [|op ops IH]; intros m Hm; simpl; [exact Hm|].
  apply IH. now apply apply_op_nodup.
Qed.

Lemma map_get_in (name : string) (c : Cookie) (m : list (string * Cookie)) :
  NoDup (map fst m) -> In (name, c) m -> map_get name m = Some c.
Proof.
  induction m as [|[k c'] m IH]; simpl; [tauto|].
  intros Hm Hin. apply NoDup_cons in Hm as [Hk Hm].
  destruct Hin as [[= -> ->]|Hin].
  - now rewrite String.eqb_refl.
  - destruct (String.eqb_spec k name) as [->|Hne]; [|now apply IH].
    exfalso. apply Hk. apply list_elem_of_In. apply in_map_iff.
    exists (name, c). auto.
Qed.

(** X3.  Whatever calls have been made on a new store, [getAll] lists every
    name at most once, each listed cookie is the one [get] gives for its
    name, and every name [has] answers for is listed. *)
Theorem getAll_agrees (ops : list Op) :
  NoDup (map (fun e => e.1.1) (getAll (after ops))) /\
  (forall name v opts,
     In (name, v, opts) (getAll (after ops)) ->
     get name (after ops) = v /\ has name (after ops) = true) /\
  (forall name,
     has name (after ops) = true ->
     exists opts, In (name, get name (after ops), opts) (getAll (after ops))).
Proof.
  pose proof (keys_nodup ops) as Hnd. generalize dependent (after ops).
  intros m Hnd. split; [|split].
  - unfold getAll. rewrite map_map.
    erewrite map_ext; [exact Hnd|]. now intros [k c].
  - intros name v opts Hin. unfold getAll in Hin.
    apply in_map_iff in Hin as ([k c] & [= -> <- <-] & Hin).
    unfold get, has. now rewrite (map_get_in name c m Hnd Hin).
  - intros name Hhas. unfold has, get in *.
    destruct (map_get name m) as [c|] eqn:Hget; [|discriminate].
    exists (options c). unfold getAll. apply in_map_iff. exists (name, c).
    split; [reflexivity|].
    clear Hnd Hhas. induction m as [|[k c'] m IH]; simpl in *; [discriminate|].
    destruct (String.eqb_spec k name) as [->|Hne]; [left; congruence | right; auto].
Qed.

(** X4.  After [setAll], a name reads back with the value of the last
    cookie of that name in the list handed over; a name that is not in the
    list reads as before. *)
Theorem setAll_last_wins (cs : list (string * JsVal * JsVal)) :
  forall (m : list (string * Cookie)) (name : string),
    get name (setAll cs m) =
    match last_named name cs with
    | Some v => v
    | None => get name m
    end.
Proof.
  unfold setAll. induction cs as [|[[k v] o] cs IH]; intros m name; simpl;
    [reflexivity|].
  rewrite IH. destruct (last_named name cs); [reflexivity|].
  destruct (String.eqb_spec k name) as [->|Hne].
  - apply get_after_set.
  - unfold get, set. now rewrite map_get_set_ne by congruence.
Qed.

Lemma map_set_new (name : string) (c : Cookie) (m : list (string * Cookie)) :
  ~ In name (map fst m) -> map_set name c m = m ++ [(name, c)].
Proof.
  induction m as [|[k c'] m IH]; simpl; [reflexivity|].
  intros Hin. destruct (String.eqb_spec k name) as [->|Hne]; [tauto|].
  rewrite IH; [reflexivity | tauto].
Qed.

Lemma setAll_fresh (cs : list (string * JsVal * JsVal)) :
  forall m : list (string * Cookie),
    NoDup (map fst m ++ map (fun e => e.1.1) cs) ->
    Forall (fun e => e.2 <> JUndefined) cs ->
    getAll (setAll cs m) = getAll m ++ cs.
Proof.
  unfold setAll. induction cs as [|[[k v] o] cs IH]; intros m Hnd Hopt; simpl.
  - now rewrite app_nil_r.
  - apply Forall_cons in Hopt as [Ho Hopt]. simpl in Ho.
    assert (~ In k (map fst m)) as Hk.
    { intros Hin. apply NoDup_app in Hnd as (_ & Hd & _).
      apply (Hd k); [now apply list_elem_of_In | left]. }
    unfold set at 2. rewrite map_set_new by exact Hk.
    rewrite IH.
    + unfold getAll. rewrite map_app. simpl. rewrite <- app_assoc. simpl.
      destruct o; try reflexivity. contradiction.
    + rewrite map_app. simpl. rewrite <- app_assoc. exact Hnd.
    + exact Hopt.
Qed.

(** X5.  Cookies with distinct names and with options, handed to [setAll]
    on a new store, come back from [getAll] as they went in, in the same
    order. *)
Theorem setAll_getAll (cs : list (string * JsVal * JsVal)) :
  NoDup (map (fun e => e.1.1) cs) ->
  Forall (fun e => e.2 <> JUndefined) cs ->
  getAll (setAll cs empty) = cs.
Proof.
  intros Hnd Hopt. now rewrite setAll_fresh.
Qed.

Lemma setAll_getAll_witness :
  getAll (setAll [("sb-access-token", JStr "a", JObject "{}");
                  ("sb-refresh-token", JStr "r", JObject "{}")] empty)
  = [("sb-access-token", JStr "a", JObject "{}");
     ("sb-refresh-token", JStr "r", JObject "{}")].
Proof.
  apply setAll_getAll.
  - apply NoDup_cons. split; [|apply NoDup_singleton].
    intros H. apply list_elem_of_In in H. destruct H as [H|[]]. discriminate H.
  - repeat constructor; discriminate.
Defined.

End CookieStore.

(* ===================================================================== *)
(** ** Start-up: when the program starts                                   *)
(* ===================================================================== *)

Lemma opt_truthy (o : option string) :
  truthy (opt_val o) = true <-> exists s, given o s.
Proof.
  destruct o as [s|]; simpl.
  - destruct (String.eqb_spec s ""); simpl; split.
    + discriminate.
    + intros (s' & [= <-] & Hne). contradiction.
    + intros _. exists s. split; auto.
    + reflexivity.
  - split; [discriminate | intros (s & H & _); discriminate].
Qed.

Lemma resolveAuth_ok (jwt_decode : string -> Decoded) (token authIdKey : string)
    (uid authId : JsVal) (p : Payload) :
  resolveAuth jwt_decode token authIdKey = Ok (uid, authId, p) <->
  token <> "" /\ jwt_decode token = DecodeReturns (Some p) /\
  uid = identity_of p /\ truthy uid = true /\
  authId = js_get p authIdKey /\ truthy authId = true.
Proof.
  unfold resolveAuth, getCredentialsFromToken.
  destruct (truthy (JStr token)) eqn:Htok; simpl.
  2:{ apply token_falsy in Htok. split; [discriminate | intros [Hne _]; contradiction]. }
  assert (Hne : token <> "") by (intros ->; discriminate Htok).
  destruct (jwt_decode token) as [msg | [q |]]; simpl;
    try (split; [discriminate | intros (_ & H & _); discriminate]).
  rewrite coalesce_identity.
  destruct (truthy (identity_of q)) eqn:Hid; simpl.
  - destruct (truthy (js_get q authIdKey)) eqn:Hauth; simpl.
    + split.
      * intros [= <- <- <-]. auto 10.
      * intros (_ & [= <-] & -> & _ & -> & _). reflexivity.
    + split; [discriminate|].
      intros (_ & [= <-] & _ & _ & -> & Ht). congruence.
  - split; [discriminate|].
    intros (_ & [= <-] & -> & Ht & _). congruence.
Qed.

Section StartupOutcome.
Variable jwt_decode : string -> Decoded.
Variable path_resolve : string -> string.
Variables SUPABASE_URL SUPABASE_ANON_KEY : option string.
Variable createServerClient : string -> string -> string -> Result unit.

Arguments truthy : simpl never.

(** X6.  The program starts exactly when the command line parses and names
    at least one path, the four options are given and not empty, the token
    decodes to a payload with a truthy identity and a truthy value read
    under the auth-id key, the two environment variables are set and not
    empty, and the client library accepts the URL, the key and the
    authorization header made of the token.  It then runs with that
    identity, that auth id, the field and table named by the caller, and one
    watcher for every path spec other than the sentinel. *)
Theorem main_starts_iff (parsed : Parsed) (env : Env) (ws : list string) :
  main jwt_decode path_resolve SUPABASE_URL SUPABASE_ANON_KEY createServerClient parsed
  = Started env ws <->
  exists opts paths,
    parsed = ParseReturns opts paths /\ paths <> [] /\
    exists jwt table dbKey authKey p url key,
      given (opt_jwt opts) jwt /\ given (opt_tableName opts) table /\
      given (opt_databaseIdKey opts) dbKey /\ given (opt_authIdKey opts) authKey /\
      jwt_decode jwt = DecodeReturns (Some p) /\
      truthy (identity_of p) = true /\ truthy (js_get p authKey) = true /\
      given SUPABASE_URL url /\ given SUPABASE_ANON_KEY key /\
      createServerClient url key ("Bearer " +:+ jwt) = Ok tt /\
      env = {| env_userId := identity_of p; env_authId := js_get p authKey;
               env_databaseIdKey := dbKey; env_tableName := table |} /\
      ws = watchers_of path_resolve paths.
Proof.
  unfold main, createClient. split.
  - destruct parsed as [code|opts paths]; [discriminate|].
    destruct paths as [|p0 paths]; [discriminate|]. simpl.
    destruct (opt_jwt opts) as [jwt|] eqn:Hjwt; [|discriminate].
    destruct (truthy (JStr jwt)) eqn:Htj; simpl; [|discriminate].
    destruct (truthy (opt_val (opt_tableName opts))) eqn:Ht; simpl; [|discriminate].
    destruct (truthy (opt_val (opt_databaseIdKey opts))) eqn:Hd; simpl; [|discriminate].
    destruct (truthy (opt_val (opt_authIdKey opts))) eqn:Ha; simpl; [|discriminate].
    destruct (resolveAuth jwt_decode jwt (default "" (opt_authIdKey opts)))
      as [[[uid authId] p]|msg] eqn:Hr; [|discriminate].
    destruct (truthy (opt_val SUPABASE_URL)) eqn:Hu; simpl; [|discriminate].
    destruct (truthy (opt_val SUPABASE_ANON_KEY)) eqn:Hk; simpl; [|discriminate].
    destruct (createServerClient (default "" SUPABASE_URL) (default "" SUPABASE_ANON_KEY)
                ("Bearer " +:+ jwt)) as [[]|msg] eqn:Hc; [|discriminate].
    intros [= <- <-]. apply truthy_str in Htj.
    apply opt_truthy in Ht as (table & Htab), Hd as (dbKey & Hdb),
        Ha as (authKey & Hak), Hu as (url & Hurl), Hk as (key & Hkey).
    apply resolveAuth_ok in Hr as (Hne & Hdec & -> & Hid & -> & Hau).
    destruct Htab as [Htab ?], Hdb as [Hdb ?], Hak as [Hak ?],
             Hurl as [Hurl ?], Hkey as [Hkey ?].
    rewrite Hak in *. rewrite Htab, Hdb. rewrite Hurl, Hkey in Hc. simpl in *.
    exists opts, (p0 :: paths). split; [reflexivity|]. split; [discriminate|].
    exists jwt, table, dbKey, authKey, p, url, key.
    unfold given in *. repeat split; auto; tauto.
  - intros (opts & paths & -> & Hp & jwt & table & dbKey & authKey & p & url & key &
            [Hjwt Hj] & [Htab Ht] & [Hdb Hd] & [Hak Ha] & Hdec & Hid & Hau &
            [Hurl Hu] & [Hkey Hk] & Hc & -> & ->).
    destruct paths as [|p0 paths]; [contradiction|]. simpl length. simpl Nat.eqb.
    cbv iota.
    rewrite Hjwt, Htab, Hdb, Hak, Hurl, Hkey. simpl.
    assert (resolveAuth jwt_decode jwt authKey = Ok (identity_of p, js_get p authKey, p)) as Hr.
    { apply resolveAuth_ok. auto 10. }
    apply truthy_str in Hj, Ht, Hd, Ha, Hu, Hk.
    rewrite Hj, Ht, Hd, Ha, Hu, Hk. simpl. rewrite Hr, Hc. reflexivity.
Qed.

(** X7.  [main] ends the process with [process.exit] in two cases only:
    the command-line library ends it while parsing, with the code of the
    library, or the command line parses and names no path, with code 1,
    whatever options are given or missing.  Once a path is named [main]
    starts or throws. *)
Theorem main_exit_iff (parsed : Parsed) (code : Z) :
  main jwt_decode path_resolve SUPABASE_URL SUPABASE_ANON_KEY createServerClient parsed
  = Exited code <->
  parsed = ParseExits code \/
  exists opts, parsed = ParseReturns opts [] /\ code = 1%Z.
Proof.
  unfold main, createClient. split.
  - destruct parsed as [c|opts paths]; [intros [= <-]; now left|].
    destruct paths as [|p0 paths]; simpl; [intros [= <-]; right; eauto|].
    destruct (opt_jwt opts) as [jwt|]; [|discriminate].
    repeat (match goal with
            | |- context [if ?b then _ else _] => destruct b
            | |- context [resolveAuth ?d ?t ?k] =>
                destruct (resolveAuth d t k) as [[[? ?] ?]|?]
            | |- context [createServerClient ?u ?k ?a] =>
                destruct (createServerClient u k a) as [[]|?]
            end; simpl; try discriminate).
  - intros [->|(opts & -> & ->)]; reflexivity.
Qed.
End StartupOutcome.

Lemma main_starts_iff_witness :
  main (fun _ => DecodeReturns (Some payload_ex)) (fun p => p)
       (Some "https://db.example") (Some "anon") client_ok
       (ParseReturns
          {| opt_jwt := Some "h.p.s"; opt_tableName := Some "logs";
             opt_databaseIdKey := Some "agent_id"; opt_authIdKey := Some "agentId" |}
          ["json:/var/log/a.log"; "-"])
  = Started env_ex ["/var/log/a.log"].
Proof.
  apply main_starts_iff. eexists _, _. split; [reflexivity|]. split; [discriminate|].
  exists "h.p.s", "logs", "agent_id", "agentId", payload_ex,
         "https://db.example", "anon".
  repeat split; try discriminate; reflexivity.
Defined.

(* ===================================================================== *)
(** ** Path specs                                                          *)
(* ===================================================================== *)

Lemma after_first_colon_none (s : string) :
  colon_free s = true -> after_first_colon s = None.
Proof.
  induction s as [|c s IH]; simpl; [reflexivity|].
  intros H. apply andb_prop in H as [Hc Hs]. apply negb_true_iff in Hc.
  rewrite Hc. now apply IH.
Qed.

Lemma after_first_colon_tag (tag p : string) :
  colon_free tag = true ->
  after_first_colon (tag +:+ String colon p) = Some p.
Proof.
  induction tag as [|c tag IH]; intros H.
  - reflexivity.
  - simpl in H. apply andb_prop in H as [Hc Hs]. apply negb_true_iff in Hc.
    rewrite string_app_cons. simpl. rewrite Hc. now apply IH.
Qed.

(** X8.  The path of a path spec: a spec without a colon, or with a colon
    in front, is the path itself; otherwise the path is what follows the
    first colon, so that a path which has a colon in it loses everything up
    to that colon, tag or not. *)
Theorem pathSpec_path_cut :
  (forall s, colon_free s = true -> pathSpec_path s = s) /\
  (forall s, pathSpec_path (String colon s) = String colon s) /\
  (forall tag p, tag <> "" -> colon_free tag = true ->
     pathSpec_path (tag +:+ String colon p) = p).
Proof.
  split; [|split].
  - intros [|c s] H; [reflexivity|]. unfold pathSpec_path.
    rewrite (after_first_colon_none _ H).
    simpl in H. apply andb_prop in H as [Hc _]. apply negb_true_iff in Hc.
    now rewrite Hc.
  - intros s. unfold pathSpec_path. now rewrite Ascii.eqb_refl.
  - intros [|c tag] p Hne H; [contradiction|].
    unfold pathSpec_path. rewrite string_app_cons.
    rewrite <- string_app_cons, (after_first_colon_tag _ _ H).
    simpl in H. apply andb_prop in H as [Hc _]. apply negb_true_iff in Hc.
    now rewrite Hc.
Qed.

(** An absolute path with a colon in a directory name. *)
Lemma pathSpec_path_cut_witness :
  pathSpec_path "/var/log/app:1/out.log" = "1/out.log".
Proof.
  apply (proj2 (proj2 pathSpec_path_cut) "/var/log/app" "1/out.log").
  - discriminate.
  - reflexivity.
Defined.

(* ===================================================================== *)
(** ** The identity in the token                                           *)
(* ===================================================================== *)

(** X9.  When the payload has a [userId] claim that is not null, that claim
    alone decides: it is the identity if it is truthy, and resolution fails
    if it is not (false, 0 or the empty string), whatever the [sub] claim
    holds. *)
Theorem userId_shadows_sub (jwt_decode : string -> Decoded) (token : string)
    (p : Payload) :
  token <> "" ->
  jwt_decode token = DecodeReturns (Some p) ->
  nullish (js_get p "userId") = false ->
  getCredentialsFromToken jwt_decode token =
  if truthy (js_get p "userId")
  then Ok {| userId := js_get p "userId"; payload := Some p |}
  else Throw "could not get user id from token".
Proof.
  intros Hne Hdec Hn. unfold getCredentialsFromToken.
  apply truthy_str in Hne. rewrite Hne, Hdec. cbn [negb].
  assert (coalesce (js_get p "userId") (coalesce (js_get p "sub") JNull)
          = js_get p "userId") as ->
    by (unfold coalesce at 1; now rewrite Hn).
  destruct (truthy (js_get p "userId")); reflexivity.
Qed.

Lemma userId_shadows_sub_witness :
  getCredentialsFromToken (fun _ => DecodeReturns (Some payload_blank_user)) "h.p.s"
  = Throw "could not get user id from token".
Proof.
  refine (eq_trans (userId_shadows_sub _ "h.p.s" payload_blank_user _ _ _) _).
  - discriminate.
  - reflexivity.
  - reflexivity.
  - reflexivity.
Defined.

(* ===================================================================== *)
(** ** Chunks, batches and the flush in flight                             *)
(* ===================================================================== *)

(** X10.  The records pushed for a session depend on the bytes the session
    has delivered, not on how the tail stream cut them into chunks nor on
    what other events came in between: two runs in which a session has
    delivered the same bytes, and has ended in both or in neither, push the
    same records for it, in the same order. *)
Theorem chunking_independent (env : Env) (watchers : list string) (fatal_stops : bool)
    (inputs1 inputs2 : list Input) (w1 w2 : World) (sid : nat) (s1 s2 : Session) :
  run env watchers fatal_stops init inputs1 = Some w1 ->
  run env watchers fatal_stops init inputs2 = Some w2 ->
  sessions w1 !! sid = Some s1 -> sessions w2 !! sid = Some s2 ->
  delivered sid inputs1 = delivered sid inputs2 ->
  s_ended s1 = s_ended s2 ->
  pushes_of sid (trace w1) = pushes_of sid (trace w2).
Proof.
  intros H1 H2 Hs1 Hs2 Hd He.
  destruct (session_inv_reachable env watchers fatal_stops inputs1 w1 H1) as [_ Hi1].
  destruct (session_inv_reachable env watchers fatal_stops inputs2 w2 H2) as [_ Hi2].
  specialize (Hi1 sid). specialize (Hi2 sid). rewrite Hs1 in Hi1. rewrite Hs2 in Hi2.
  destruct Hi1 as (_ & _ & ->). destruct Hi2 as (_ & _ & ->).
  now rewrite Hd, He.
Qed.

Lemma chunking_independent_witness :
  exists w1 w2,
    run env_ex ["/var/log"] true init cut_ex = Some w1 /\
    run env_ex ["/var/log"] true init whole_ex = Some w2 /\
    pushes_of 0 (trace w1) = pushes_of 0 (trace w2).
Proof.
  destruct (run env_ex ["/var/log"] true init cut_ex) as [w1|] eqn:H1;
    [|vm_compute in H1; discriminate].
  destruct (run env_ex ["/var/log"] true init whole_ex) as [w2|] eqn:H2;
    [|vm_compute in H2; discriminate].
  exists w1, w2. split; [reflexivity|]. split; [reflexivity|].
  assert (exists s1, sessions w1 !! 0 = Some s1 /\ s_ended s1 = false)
    as (s1 & Hs1 & He1)
    by (vm_compute in H1; injection H1 as <-; eexists; split; reflexivity).
  assert (exists s2, sessions w2 !! 0 = Some s2 /\ s_ended s2 = false)
    as (s2 & Hs2 & He2)
    by (vm_compute in H2; injection H2 as <-; eexists; split; reflexivity).
  apply (chunking_independent env_ex ["/var/log"] true cut_ex whole_ex w1 w2 0 s1 s2
           H1 H2 Hs1 Hs2 eq_refl).
  now rewrite He1, He2.
Defined.

Section Batches.
Variable env : Env.
Variable watchers : list string.
Variable fatal_stops : bool.

Lemma batch_inv_loop_head (entries : list Entry) (i : nat) (w : World) :
  entries <> [] -> batch_inv w -> batch_inv (loop_head env entries i w).1.
Proof.
  intros He (Hf & Ht). unfold loop_head.
  destruct (i <? numRetries); simpl; split; simpl;
    repeat first [assumption | apply Forall_app; split | constructor].
Qed.

Lemma batch_inv_run_turn (w : World) : batch_inv w -> batch_inv (run_turn env fatal_stops w).
Proof.
  intros (Hf & Ht). unfold run_turn, flush. simpl.
  destruct (0 <? length (lineQueue w)) eqn:Hlen.
  - assert (lineQueue w <> []) as Hne
      by (destruct (lineQueue w); [discriminate Hlen | discriminate]).
    pose proof (batch_inv_loop_head (lineQueue w) 0
       (emit [EvSnapshot (lineQueue w)]
          (set_lineQueue [] (set_debouncer (Flushing false) w))) Hne) as H.
    destruct (loop_head env (lineQueue w) 0 _) as [w1 st]. simpl in H.
    assert (batch_inv w1) as Hw1.
    { apply H. split; simpl;
        repeat first [assumption | apply Forall_app; split | constructor]. }
    destruct st; exact Hw1.
  - split; simpl; repeat first [assumption | apply Forall_app; split | constructor].
Qed.

Lemma batch_inv_turn_done (w : World) : batch_inv w -> batch_inv (turn_done env fatal_stops w).
Proof.
  intros Hw. unfold turn_done.
  destruct (debouncer w) as [|[|]|]; auto using batch_inv_run_turn.
Qed.

Lemma batch_inv_turn_failed (w : World) :
  batch_inv w -> batch_inv (turn_failed env fatal_stops w).
Proof.
  intros Hw. unfold turn_failed.
  pose proof (batch_inv_turn_done w Hw) as Hgoes_on.
  destruct fatal_stops; [exact Hw | exact Hgoes_on].
Qed.

Lemma batch_inv_line (src : nat) (stream line : string) (w : World) :
  batch_inv w -> batch_inv (makeProcessLogLine env fatal_stops src stream line w).
Proof.
  intros (Hf & Ht). unfold makeProcessLogLine.
  destruct (truthy (JStr line)); [|split; assumption].
  match goal with |- batch_inv (waitForTurn env fatal_stops ?w1) =>
    assert (batch_inv w1) as Hw1 end.
  { split; simpl; repeat first [assumption | apply Forall_app; split | constructor]. }
  unfold waitForTurn.
  match goal with |- context [debouncer ?w1] => destruct (debouncer w1) end;
    auto using batch_inv_run_turn.
Qed.

Lemma batch_inv_session_lines (sid : nat) (lines : list string) (w : World) :
  batch_inv w -> batch_inv (session_lines env fatal_stops sid lines w).
Proof.
  rewrite session_lines_stdout_only.
  generalize (flat_map tail_on_data lines). intros chunks.
  revert w. induction chunks as [|c chunks IH]; intros w Hw; simpl; [exact Hw|].
  apply IH. unfold global_stdout_write.
  destruct (split2_write (gout_last w) c) as [ls last].
  assert (batch_inv (set_gout_last last w)) as H by exact Hw.
  revert H. generalize (set_gout_last last w).
  induction ls as [|l ls IHl]; intros w0 Hw0; simpl; [exact Hw0|].
  apply IHl. now apply batch_inv_line.
Qed.

Lemma batch_inv_step (w w' : World) (inp : Input) :
  batch_inv w -> step env watchers fatal_stops w inp = Some w' -> batch_inv w'.
Proof.
  intros Hw Hstep. unfold step in Hstep.
  destruct (debouncer w) eqn:Hd; [| |discriminate].
  all: destruct inp as [fs p|sid chunk|sid|chunk|k error|k].
  all: try (destruct watchers; [discriminate|];
            destruct (addTailStream fs p); simplify_eq; exact Hw).
  all: try (destruct (sessions w !! sid) as [sess|]; [|discriminate];
            destruct (s_ended sess); [discriminate|];
            try destruct (split2_write (s_last sess) chunk) as [lines last];
            simplify_eq; apply batch_inv_session_lines; exact Hw).
  all: try (simplify_eq; exact Hw).
  all: destruct (flights w !! k) as [f|] eqn:Hk; [|discriminate].
  all: assert (fl_entries f <> []) as Hfe
         by (destruct Hw as (Hf & _); exact (Forall_lookup_1 _ _ _ _ Hf Hk)).
  all: destruct Hw as (Hf & Ht).
  all: destruct (fl_pc f) eqn:Hpc; try discriminate.
  all: try (destruct error; simplify_eq;
            [ split; simpl;
                repeat first [assumption | apply Forall_insert | apply Forall_app; split
                             | constructor]
            | apply batch_inv_turn_done; split; simpl;
                repeat first [assumption | apply Forall_delete | apply Forall_app; split
                             | constructor] ]).
  all: pose proof (batch_inv_loop_head (fl_entries f) (S (fl_i f))
                     (set_flights (delete k (flights w)) w) Hfe) as H;
       destruct (loop_head env (fl_entries f) (S (fl_i f)) _) as [w1 st];
       simpl in H; simplify_eq;
       assert (batch_inv w1) as Hw1
         by (apply H; split; simpl;
             repeat first [assumption | apply Forall_delete | constructor]);
       destruct st; auto using batch_inv_turn_done, batch_inv_turn_failed.
Qed.

Lemma batch_inv_reachable (inputs : list Input) (w : World) :
  run env watchers fatal_stops init inputs = Some w -> batch_inv w.
Proof.
  assert (batch_inv init) as H0 by (split; constructor).
  revert H0. generalize init. revert w.
  induction inputs as [|inp inputs IH]; intros w w0 Hw0 Hrun; simpl in Hrun.
  - now simplify_eq.
  - destruct (step env watchers fatal_stops w0 inp) as [w1|] eqn:Hstep; [|discriminate].
    eapply IH; [|exact Hrun]. eapply batch_inv_step; eassumption.
Qed.
End Batches.

(** X11.  In every run, each insert call goes to the table the caller
    named and carries a batch that is not empty. *)
Theorem inserts_named_table_nonempty (env : Env) (watchers : list string)
    (fatal_stops : bool) (inputs : list Input) (w : World)
    (t : string) (b : list Entry) :
  run env watchers fatal_stops init inputs = Some w ->
  In (EvInsert t b) (trace w) ->
  t = env_tableName env /\ b <> [].
Proof.
  intros Hrun Hin. split.
  - destruct (flow_inv_reachable env watchers fatal_stops inputs w Hrun)
      as (_ & _ & Hb & _).
    apply in_split in Hin as (tr1 & tr2 & Heq).
    now destruct (Hb tr1 t b tr2 Heq).
  - destruct (batch_inv_reachable env watchers fatal_stops inputs w Hrun) as [_ Ht].
    rewrite Forall_forall in Ht.
    apply (Ht (EvInsert t b)). now apply list_elem_of_In.
Qed.

Lemma inserts_named_table_nonempty_witness :
  exists w,
    run env_ex ["/var/log/a.log"] true init burst_ex = Some w /\
    In (EvInsert "logs" [mkEntry env_ex "stdout" "one"]) (trace w) /\
    "logs" = env_tableName env_ex.
Proof.
  destruct (run env_ex ["/var/log/a.log"] true init burst_ex) as [w|] eqn:Hrun;
    [|vm_compute in Hrun; discriminate].
  assert (In (EvInsert "logs" [mkEntry env_ex "stdout" "one"]) (trace w)) as Hin
    by (vm_compute in Hrun; injection Hrun as <-; vm_compute; auto).
  exists w. split; [reflexivity|]. split; [exact Hin|].
  exact (proj1 (inserts_named_table_nonempty env_ex ["/var/log/a.log"] true
                  burst_ex w "logs" _ Hrun Hin)).
Defined.

Section Absorb.
Variable env : Env.
Variable watchers : list string.
Variable fatal_stops : bool.

Lemma absorbed_refl (w : World) : absorbed w w.
Proof.
  split; [reflexivity|]. exists []. simpl. now rewrite !app_nil_r.
Qed.

Lemma absorbed_flushing (w w' : World) :
  is_flushing w -> absorbed w w' -> is_flushing w'.
Proof.
  intros [p Hp] (_ & evs & _ & _ & _ & _ & Hd). unfold is_flushing.
  rewrite Hd. destruct (pushes evs); eauto.
Qed.

Lemma absorbed_trans (a b c : World) :
  absorbed a b -> absorbed b c -> absorbed a c.
Proof.
  intros (Hf1 & e1 & Ht1 & Hi1 & Hs1 & Hq1 & Hd1) (Hf2 & e2 & Ht2 & Hi2 & Hs2 & Hq2 & Hd2).
  split; [congruence|]. exists (e1 ++ e2).
  rewrite inserts_app, snapshots_app, pushes_app, Hi1, Hi2, Hs1, Hs2.
  split; [now rewrite Ht2, Ht1, app_assoc|]. split; [reflexivity|].
  split; [reflexivity|]. split.
  - now rewrite Hq2, Hq1, map_app, app_assoc.
  - rewrite Hd2. destruct (pushes e2) as [|x l].
    + now rewrite app_nil_r.
    + now destruct (pushes e1).
Qed.

Lemma absorbed_line (src : nat) (stream line : string) (w : World) :
  is_flushing w -> absorbed w (makeProcessLogLine env fatal_stops src stream line w).
Proof.
  intros [p Hp]. unfold makeProcessLogLine.
  destruct (truthy (JStr line)); [|apply absorbed_refl].
  unfold waitForTurn. simpl. rewrite Hp.
  split; [reflexivity|]. exists [EvPush src (mkEntry env stream line)].
  simpl. auto.
Qed.

Lemma absorbed_lines (src : nat) (stream : string) (lines : list string) (w : World) :
  is_flushing w ->
  absorbed w (fold_left (fun w line => makeProcessLogLine env fatal_stops src stream line w)
                        lines w).
Proof.
  revert w. induction lines as [|l lines IH]; intros w Hw; simpl.
  - apply absorbed_refl.
  - pose proof (absorbed_line src stream l w Hw) as H1.
    eapply absorbed_trans; [exact H1|].
    apply IH. eapply absorbed_flushing; eassumption.
Qed.

Lemma absorbed_session_lines (sid : nat) (lines : list string) (w : World) :
  is_flushing w -> absorbed w (session_lines env fatal_stops sid lines w).
Proof.
  rewrite session_lines_stdout_only.
  generalize (flat_map tail_on_data lines). intros chunks.
  revert w. induction chunks as [|c chunks IH]; intros w Hw; simpl.
  - apply absorbed_refl.
  - assert (absorbed w (global_stdout_write env fatal_stops sid w c)) as H1.
    { unfold global_stdout_write.
      destruct (split2_write (gout_last w) c) as [ls last].
      apply (absorbed_trans w (set_gout_last last w)).
      - apply (absorbed_refl w).
      - apply absorbed_lines. exact Hw. }
    eapply absorbed_trans; [exact H1|].
    apply IH. eapply absorbed_flushing; eassumption.
Qed.

Lemma absorbed_step (w w' : World) (inp : Input) :
  is_flushing w -> source_event inp = true ->
  step env watchers fatal_stops w inp = Some w' -> absorbed w w'.
Proof.
  intros Hw Hsrc Hstep. pose proof Hw as [p Hp].
  unfold step in Hstep. rewrite Hp in Hstep.
  destruct inp as [fs f|sid chunk|sid|chunk|k error|k]; try discriminate Hsrc.
  - destruct watchers; [discriminate|].
    destruct (addTailStream fs f); simplify_eq. apply (absorbed_refl w).
  - destruct (sessions w !! sid) as [sess|]; [|discriminate].
    destruct (s_ended sess); [discriminate|].
    destruct (split2_write (s_last sess) chunk) as [lines last]. simplify_eq.
    match goal with |- absorbed w (session_lines _ _ _ _ ?w0) =>
      apply (absorbed_trans w w0); [apply (absorbed_refl w)|] end.
    apply absorbed_session_lines. exact Hw.
  - destruct (sessions w !! sid) as [sess|]; [|discriminate].
    destruct (s_ended sess); [discriminate|]. simplify_eq.
    match goal with |- absorbed w (session_lines _ _ _ _ ?w0) =>
      apply (absorbed_trans w w0); [apply (absorbed_refl w)|] end.
    apply absorbed_session_lines. exact Hw.
  - simplify_eq. apply absorbed_refl.
Qed.

Lemma absorbed_run (events : list Input) :
  forall w w',
    is_flushing w -> forallb source_event events = true ->
    run env watchers fatal_stops w events = Some w' -> absorbed w w'.
Proof.
  induction events as [|inp events IH]; intros w w' Hw Hsrc Hrun; simpl in *.
  - simplify_eq. apply absorbed_refl.
  - apply andb_prop in Hsrc as [Hinp Hsrc].
    destruct (step env watchers fatal_stops w inp) as [w1|] eqn:Hstep; [|discriminate].
    pose proof (absorbed_step w w1 inp Hw Hinp Hstep) as H1.
    eapply absorbed_trans; [exact H1|].
    apply IH; [|exact Hsrc|exact Hrun]. eapply absorbed_flushing; eassumption.
Qed.
End Absorb.

(** X12.  While a flush is in flight, waiting for the sink or for the
    backoff timer, nothing that comes from the sources reaches the sink:
    whatever files are discovered and whatever bytes arrive, the flush in
    flight keeps its batch, the queue is not snapshotted, no insert is
    called, and the records pushed are appended to the queue in order; one
    more flush is pending as soon as one record has been pushed. *)
Theorem absorbed_while_flushing (env : Env) (watchers : list string)
    (fatal_stops : bool) (w w' : World) (pending : bool) (events : list Input) :
  debouncer w = Flushing pending ->
  forallb source_event events = true ->
  run env watchers fatal_stops w events = Some w' ->
  flights w' = flights w /\
  exists evs,
    trace w' = trace w ++ evs /\
    inserts evs = [] /\ snapshots evs = [] /\
    lineQueue w' = lineQueue w ++ map snd (pushes evs) /\
    debouncer w' = match pushes evs with
                   | [] => Flushing pending
                   | _ :: _ => Flushing true
                   end.
Proof.
  intros Hd Hsrc Hrun.
  destruct (absorbed_run env watchers fatal_stops events w w') as (Hf & evs & H);
    [now exists pending | exact Hsrc | exact Hrun |].
  split; [exact Hf|]. exists evs. now rewrite <- Hd.
Qed.

Lemma absorbed_while_flushing_witness :
  exists w w',
    run env_ex ["/var/log"] true init in_flight_ex = Some w /\
    run env_ex ["/var/log"] true w
        [TailData 0 ("two" +:+ nl); FileAdded fs_ex "/var/log/b.log";
         TailData 1 ("three" +:+ nl)] = Some w' /\
    flights w' = flights w /\
    length (inserts (trace w')) = length (inserts (trace w)).
Proof.
  destruct (run env_ex ["/var/log"] true init in_flight_ex) as [w|] eqn:H1;
    [|vm_compute in H1; discriminate].
  assert (debouncer w = Flushing false) as Hd
    by (vm_compute in H1; injection H1 as <-; reflexivity).
  destruct (run env_ex ["/var/log"] true w
              [TailData 0 ("two" +:+ nl); FileAdded fs_ex "/var/log/b.log";
               TailData 1 ("three" +:+ nl)]) as [w'|] eqn:H2.
  2:{ vm_compute in H1. injection H1 as <-. vm_compute in H2. discriminate. }
  exists w, w'. split; [reflexivity|]. split; [exact H2|].
  destruct (absorbed_while_flushing env_ex ["/var/log"] true w w' false
              [TailData 0 ("two" +:+ nl); FileAdded fs_ex "/var/log/b.log";
               TailData 1 ("three" +:+ nl)] Hd eq_refl H2)
    as (Hf & evs & Ht & Hi & _).
  split; [exact Hf|]. now rewrite Ht, inserts_app, Hi, app_nil_r.
Defined.

(* ===================================================================== *)
(** ** The revision with log formats: what a line becomes                  *)
(* ===================================================================== *)

Section Formats.
Import FormatRevision.

Lemma split2_write_terminated (s last : string) :
  (split2_write last (s +:+ nl)).2 = "".
Proof.
  rewrite split2_write_app.
  destruct (split2_write last s) as [l1 mid]. reflexivity.
Qed.

Lemma flat_map_unified (agentId : JsVal) (lines : list string) :
  flat_map (unified_on_data agentId) lines =
  map (mkRecord agentId) (List.filter (fun l => truthy (JStr l)) lines).
Proof.
  induction lines as [|l lines IH]; [reflexivity|].
  cbn [flat_map List.filter]. unfold unified_on_data at 1.
  destruct (truthy (JStr l)); simpl; now rewrite IH.
Qed.

(** X13.  For a path spec tagged [json], a line that is not empty and is
    not a JSON object with a string under [log] is not dropped: the parser
    returns [undefined], the handler writes the text [undefined], and one
    record with the content [undefined] is inserted. *)
Theorem malformed_line_becomes_undefined (JSON_parse : string -> option JsonValue)
    (agentId : JsVal) (pathSpec line : string) :
  pathSpec_format pathSpec = Some "json" ->
  line <> "" ->
  (forall fields log,
     JSON_parse line = Some (JsonObject fields) -> fields !! "log" <> Some (JStr log)) ->
  dockerJsonLogParser JSON_parse line = None /\
  inserted_for agentId (parser_of JSON_parse (pathSpec_format pathSpec)) line
  = ([mkRecord agentId "undefined"], "").
Proof.
  intros Hfmt Hne Hlog. rewrite Hfmt.
  assert (dockerJsonLogParser JSON_parse line = None) as Hp.
  { unfold dockerJsonLogParser.
    destruct (JSON_parse line) as [[fields| |]|] eqn:Hj; try reflexivity.
    unfold js_get. destruct (fields !! "log") as [v|] eqn:Hf; [|reflexivity].
    destruct v; try reflexivity. exfalso. now apply (Hlog fields s). }
  split; [exact Hp|].
  unfold inserted_for, tail_on_data. apply truthy_str in Hne. rewrite Hne.
  cbn [parser_of String.eqb Ascii.eqb Bool.eqb]. rewrite Hp. reflexivity.
Qed.

Lemma malformed_line_becomes_undefined_witness :
  inserted_for (JStr "agent-7")
    (parser_of (fun _ => None) (pathSpec_format "json:/var/log/c.log")) "not json"
  = ([mkRecord (JStr "agent-7") "undefined"], "").
Proof.
  apply (malformed_line_becomes_undefined (fun _ => None) (JStr "agent-7")
           "json:/var/log/c.log" "not json").
  - reflexivity.
  - discriminate.
  - discriminate.
Defined.

(** X14.  For a path spec tagged [json], a line with a string under [log]
    gives one record for each non-empty line of that string, in order, and
    leaves nothing held back: the newline that ends the [log] value of a
    container log is not doubled into an empty record, a [log] value with
    newlines inside is sent as several records, and an empty one as none. *)
Theorem parsed_log_lines (JSON_parse : string -> option JsonValue)
    (agentId : JsVal) (pathSpec line log : string) (fields : gmap string JsVal) :
  pathSpec_format pathSpec = Some "json" ->
  line <> "" ->
  JSON_parse line = Some (JsonObject fields) ->
  fields !! "log" = Some (JStr log) ->
  inserted_for agentId (parser_of JSON_parse (pathSpec_format pathSpec)) line
  = (map (mkRecord agentId) (lines_of (log +:+ nl) false), "").
Proof.
  intros Hfmt Hne Hj Hf. rewrite Hfmt.
  unfold inserted_for, tail_on_data. apply truthy_str in Hne. rewrite Hne.
  cbn [parser_of String.eqb Ascii.eqb Bool.eqb].
  assert (dockerJsonLogParser JSON_parse line = Some log) as Hp.
  { unfold dockerJsonLogParser, js_get. rewrite Hj, Hf. reflexivity. }
  rewrite Hp. cbn [plus_newline].
  unfold unified_write, lines_of.
  pose proof (split2_write_terminated log "") as Hlast.
  destruct (split2_write "" (log +:+ nl)) as [lines last]. simpl in Hlast. subst last.
  now rewrite flat_map_unified, app_nil_r.
Qed.

Lemma parsed_log_lines_witness :
  inserted_for (JStr "agent-7")
    (parser_of (fun _ => Some (JsonObject docker_fields))
       (pathSpec_format "json:/var/log/c.log")) "{...}"
  = ([mkRecord (JStr "agent-7") "listening on 8080"], "").
Proof.
  refine (eq_trans
            (parsed_log_lines (fun _ => Some (JsonObject docker_fields))
               (JStr "agent-7") "json:/var/log/c.log" "{...}"
               ("listening on 8080" +:+ nl) docker_fields
               _ _ _ _) _).
  - reflexivity.
  - discriminate.
  - reflexivity.
  - reflexivity.
  - reflexivity.
Defined.

(** X15.  A path spec with any other tag, or with none, selects the
    identity parser, [JSON.parse] is not consulted, and a non-empty line of
    the file is inserted as one record with the line as its content. *)
Theorem other_formats_pass_through (JSON_parse : string -> option JsonValue)
    (agentId : JsVal) (pathSpec line : string) :
  pathSpec_format pathSpec <> Some "json" ->
  line <> "" ->
  newline_free line = true ->
  inserted_for agentId (parser_of JSON_parse (pathSpec_format pathSpec)) line
  = ([mkRecord agentId line], "").
Proof.
  intros Hfmt Hne Hfree.
  assert (parser_of JSON_parse (pathSpec_format pathSpec) = rawParser) as ->.
  { unfold parser_of. destruct (pathSpec_format pathSpec) as [tag|]; [|reflexivity].
    destruct (String.eqb_spec tag "json") as [->|_]; [congruence | reflexivity]. }
  unfold inserted_for, tail_on_data. pose proof Hne as Ht. apply truthy_str in Ht.
  rewrite Ht. cbn [rawParser plus_newline]. unfold unified_write.
  rewrite (split2_write_line line "" Hfree). change ("" +:+ line) with line.
  cbn [flat_map]. unfold unified_on_data. rewrite Ht. reflexivity.
Qed.

Lemma other_formats_pass_through_witness :
  inserted_for (JStr "agent-7")
    (parser_of (fun _ => None) (pathSpec_format "JSON:/var/log/c.log")) "{}"
  = ([mkRecord (JStr "agent-7") "{}"], "").
Proof.
  apply (other_formats_pass_through (fun _ => None) (JStr "agent-7")
           "JSON:/var/log/c.log" "{}").
  - discriminate.
  - discriminate.
  - reflexivity.
Defined.

End Formats.
